(** * flo-webui: the client-side state-synchronisation layer

    A shallow embedding of
    - the [game] slice (store/features/game: lobby / game state reducers),
    - the [ws] slice and [dispatchMessage] (store/features/ws),
    - the generated protobuf class [proto.node.Node] (generated/node_pb.js),
    followed by the properties proved about them.

    Reducers created by [createSlice] run under Immer: the "mutations" they
    perform on [state] produce a new immutable state value and never alter
    the action payload, so every reducer is a function from the old state
    and the payload to the new state.  A reducer that raises a [TypeError]
    is modelled by the outcome [Throw]; the store keeps its previous state
    in that case (see [commit]). *)

From Stdlib Require Import ZArith Lia.
From stdpp Require Import gmap strings list fin_maps pretty.

Local Open Scope Z_scope.

(* ===================================================================== *)
(** * Part I: the embedding                                               *)
(* ===================================================================== *)

(** ** JavaScript values shared by the slices *)

(** Outcome of running a reducer body: a new state, or an exception. *)
Inductive result (A : Type) : Type :=
  | Ok (a : A)
  | Throw.
Arguments Ok {A} a.
Arguments Throw {A}.

(** What the store holds after a reducer ran on [s]: a reducer that throws
    never returns, so the store's state is not replaced. *)
Definition commit {A : Type} (s : A) (r : result A) : A :=
  match r with
  | Ok s' => s'
  | Throw => s
  end.

(** Scalar JSON values, for the message bodies whose TypeScript
    declarations (types/ws) only fix that they are plain objects. *)
Inductive JsValue : Type :=
  | JNull
  | JBool (b : bool)
  | JNum (n : Z)
  | JStr (s : string).

(** A plain JS object used as a string-keyed dictionary of scalars. *)
Abbreviation JsObject := (gmap string JsValue).

(** [SerializedError] of Redux Toolkit: four optional string fields. *)
Module SerializedError.
Record t : Type := mk {
  name : option string;
  message : option string;
  stack : option string;
  code : option string
}.
End SerializedError.

(** The property key JavaScript derives from an integer number used as a
    computed key ([{[player_id]: ...}], [obj[player_id]]): its decimal
    representation. *)
Definition propertyKey (n : Z) : string := pretty n.

(** [arr[i] = x] on a JS array: in range it overwrites the element, out of
    range the array is extended and the skipped positions become holes
    (a hole, which reads as [undefined], is [None]). *)
Definition array_set {A : Type} (arr : list (option A)) (i : nat) (x : A)
  : list (option A) :=
  if decide (i < length arr)%nat then <[i := Some x]> arr
  else arr ++ replicate (i - length arr)%nat None ++ [Some x].

(* ------------------------------------------------------------------- *)
(** ** The [game] slice (store/features/game)                           *)
(* ------------------------------------------------------------------- *)

Module Game.

(** Modelled from the spec: types/lobby, types/player and types/node are
    missing from the sources; the records below carry the fields the
    reducers read or write, and the remaining configuration of a slot as
    a dictionary. *)
Inductive SlotStatus : Type := Open | Closed | Occupied.

Module SlotSettings.
Record t : Type := mk {
  status : SlotStatus;
  other : gmap string Z
}.
End SlotSettings.

Module PlayerRef.
Record t : Type := mk {
  id : Z;
  name : string
}.
End PlayerRef.

Module Slot.
Record t : Type := mk {
  settings : SlotSettings.t;
  player : option PlayerRef.t
}.
End Slot.

Module NodeRef.
Record t : Type := mk {
  id : Z;
  name : string
}.
End NodeRef.

Module GameInfo.
Record t : Type := mk {
  id : Z;
  slots : list (option Slot.t);
  node : option NodeRef.t
}.
End GameInfo.

(** [GamePlayerPingMap]: player id key -> (node id key -> ping). *)
Abbreviation PingMap := (gmap string Z).
Abbreviation GamePlayerPingMap := (gmap string (gmap string Z)).

(** [interface GameState] *)
Record GameState : Type := mkGameState {
  createGameLoading : bool;
  createGameError : option SerializedError.t;
  currentGame : option GameInfo.t;
  currentNodeId : option Z;
  currentNodeLoading : bool;
  currentPingMap : option GamePlayerPingMap;
  pingSnapshotLoading : bool;
  pingSnapshot : option JsObject
}.

Definition initialState : GameState :=
  {| createGameLoading := false;
     createGameError := None;
     currentGame := None;
     currentNodeId := None;
     currentNodeLoading := false;
     currentPingMap := None;
     pingSnapshotLoading := false;
     pingSnapshot := None |}.

(** *** Payloads (types/ws) *)

Module GameSlotUpdateMessage.
Record t : Type := mk {
  game_id : Z;
  slot_index : nat;
  slot_settings : SlotSettings.t
}.
End GameSlotUpdateMessage.

Module GameSelectNodeMessage.
Record t : Type := mk {
  game_id : Z;
  node_id : option Z
}.
End GameSelectNodeMessage.

Module GamePlayerEnterMessage.
Record t : Type := mk {
  game_id : Z;
  slot_index : nat;
  slot : Slot.t
}.
End GamePlayerEnterMessage.

Module GamePlayerLeaveMessage.
Record t : Type := mk {
  game_id : Z;
  player_id : Z
}.
End GamePlayerLeaveMessage.

Module GamePlayerPingMapUpdateMessage.
Record t : Type := mk {
  player_id : Z;
  ping_map : PingMap
}.
End GamePlayerPingMapUpdateMessage.

(** *** Field assignments on the state *)

Definition set_currentGame (g : option GameInfo.t) (s : GameState) :=
  {| createGameLoading := createGameLoading s;
     createGameError := createGameError s;
     currentGame := g;
     currentNodeId := currentNodeId s;
     currentNodeLoading := currentNodeLoading s;
     currentPingMap := currentPingMap s;
     pingSnapshotLoading := pingSnapshotLoading s;
     pingSnapshot := pingSnapshot s |}.

Definition set_currentPingMap (m : option GamePlayerPingMap) (s : GameState) :=
  {| createGameLoading := createGameLoading s;
     createGameError := createGameError s;
     currentGame := currentGame s;
     currentNodeId := currentNodeId s;
     currentNodeLoading := currentNodeLoading s;
     currentPingMap := m;
     pingSnapshotLoading := pingSnapshotLoading s;
     pingSnapshot := pingSnapshot s |}.

Definition set_slots (l : list (option Slot.t)) (g : GameInfo.t) : GameInfo.t :=
  {| GameInfo.id := GameInfo.id g;
     GameInfo.slots := l;
     GameInfo.node := GameInfo.node g |}.

(** The guard [state.currentGame && state.currentGame.id === game_id];
    when it holds the current game is returned. *)
Definition matchingGame (state : GameState) (game_id : Z) : option GameInfo.t :=
  match currentGame state with
  | Some g => if decide (GameInfo.id g = game_id) then Some g else None
  | None => None
  end.

(** *** Reducers *)

Definition clearGameCreateError (state : GameState) : GameState :=
  {| createGameLoading := createGameLoading state;
     createGameError := None;
     currentGame := currentGame state;
     currentNodeId := currentNodeId state;
     currentNodeLoading := currentNodeLoading state;
     currentPingMap := currentPingMap state;
     pingSnapshotLoading := pingSnapshotLoading state;
     pingSnapshot := pingSnapshot state |}.

Definition updateCurrentGame (state : GameState) (payload : option GameInfo.t)
  : GameState :=
  {| createGameLoading := false;
     createGameError := None;
     currentGame := payload;
     currentNodeId :=
       match payload with
       | Some g =>
           match GameInfo.node g with
           | Some n => Some (NodeRef.id n)
           | None => None
           end
       | None => None
       end;
     currentNodeLoading := false;
     currentPingMap := None;
     pingSnapshotLoading := pingSnapshotLoading state;
     pingSnapshot := pingSnapshot state |}.

(** [state.currentGame.slots[slot_index].settings = slot_settings]:
    reading the element of an index out of range, or of a hole, gives
    [undefined], and assigning a property of [undefined] throws. *)
Definition updateSlot (state : GameState) (payload : GameSlotUpdateMessage.t)
  : result GameState :=
  let game_id := GameSlotUpdateMessage.game_id payload in
  let slot_index := GameSlotUpdateMessage.slot_index payload in
  let slot_settings := GameSlotUpdateMessage.slot_settings payload in
  match matchingGame state game_id with
  | Some g =>
      match GameInfo.slots g !! slot_index with
      | Some (Some slot) =>
          let slot' := Slot.mk slot_settings (Slot.player slot) in
          Ok (set_currentGame
                (Some (set_slots (<[slot_index := Some slot']> (GameInfo.slots g)) g))
                state)
      | _ => Throw
      end
  | None => Ok state
  end.

Definition startUpdateNode (state : GameState) : GameState :=
  {| createGameLoading := createGameLoading state;
     createGameError := createGameError state;
     currentGame := currentGame state;
     currentNodeId := None;
     currentNodeLoading := true;
     currentPingMap := currentPingMap state;
     pingSnapshotLoading := pingSnapshotLoading state;
     pingSnapshot := pingSnapshot state |}.

Definition updateNode (state : GameState) (payload : GameSelectNodeMessage.t)
  : GameState :=
  match matchingGame state (GameSelectNodeMessage.game_id payload) with
  | Some _ =>
      {| createGameLoading := createGameLoading state;
         createGameError := createGameError state;
         currentGame := currentGame state;
         currentNodeId := GameSelectNodeMessage.node_id payload;
         currentNodeLoading := false;
         currentPingMap := None;
         pingSnapshotLoading := pingSnapshotLoading state;
         pingSnapshot := pingSnapshot state |}
  | None => state
  end.

Definition updatePlayerEnter (state : GameState) (payload : GamePlayerEnterMessage.t)
  : GameState :=
  match matchingGame state (GamePlayerEnterMessage.game_id payload) with
  | Some g =>
      set_currentGame
        (Some (set_slots
                 (array_set (GameInfo.slots g)
                    (GamePlayerEnterMessage.slot_index payload)
                    (GamePlayerEnterMessage.slot payload))
                 g))
        state
  | None => state
  end.

(** The callback of [find]: [s.player && s.player.id === player_id]. *)
Definition playerIs (player_id : Z) (s : Slot.t) : bool :=
  match Slot.player s with
  | Some p => bool_decide (PlayerRef.id p = player_id)
  | None => false
  end.

(** [slots.find(cb)], from index [i] on: the first element that satisfies
    the callback, with its index.  [find] also visits holes, for which the
    callback reads a property of [undefined] and throws. *)
Fixpoint find_from (cb : Slot.t → bool) (i : nat) (arr : list (option Slot.t))
  : result (option (nat * Slot.t)) :=
  match arr with
  | [] => Ok None
  | None :: _ => Throw
  | Some s :: rest => if cb s then Ok (Some (i, s)) else find_from cb (S i) rest
  end.

Definition find (cb : Slot.t → bool) (arr : list (option Slot.t)) :=
  find_from cb 0%nat arr.

(** [slot.player = null; slot.settings.status = SlotStatus.Open] *)
Definition vacate (slot : Slot.t) : Slot.t :=
  Slot.mk
    (SlotSettings.mk Open (SlotSettings.other (Slot.settings slot)))
    None.

(** The [else] branch only logs with [console.error]. *)
Definition updatePlayerLeave (state : GameState) (payload : GamePlayerLeaveMessage.t)
  : result GameState :=
  match matchingGame state (GamePlayerLeaveMessage.game_id payload) with
  | Some g =>
      match find (playerIs (GamePlayerLeaveMessage.player_id payload))
              (GameInfo.slots g) with
      | Ok (Some (i, slot)) =>
          Ok (set_currentGame
                (Some (set_slots (<[i := Some (vacate slot)]> (GameInfo.slots g)) g))
                state)
      | Ok None => Ok state
      | Throw => Throw
      end
  | None => Ok state
  end.

Definition startLoadPingSnapshot (state : GameState) : GameState :=
  {| createGameLoading := createGameLoading state;
     createGameError := createGameError state;
     currentGame := currentGame state;
     currentNodeId := currentNodeId state;
     currentNodeLoading := currentNodeLoading state;
     currentPingMap := currentPingMap state;
     pingSnapshotLoading := true;
     pingSnapshot := None |}.

Definition setPingSnapshot (state : GameState) (payload : JsObject) : GameState :=
  {| createGameLoading := createGameLoading state;
     createGameError := createGameError state;
     currentGame := currentGame state;
     currentNodeId := currentNodeId state;
     currentNodeLoading := currentNodeLoading state;
     currentPingMap := currentPingMap state;
     pingSnapshotLoading := false;
     pingSnapshot := Some payload |}.

(** [for (let [node_id, ping] of Object.entries(ping_map)) map[node_id] = ping] *)
Definition assignEntries (map : PingMap) (entries : list (string * Z)) : PingMap :=
  foldl (λ m e, <[e.1 := e.2]> m) map entries.

Definition updateCurrentPing (state : GameState)
    (payload : GamePlayerPingMapUpdateMessage.t) : GameState :=
  let key := propertyKey (GamePlayerPingMapUpdateMessage.player_id payload) in
  let ping_map := GamePlayerPingMapUpdateMessage.ping_map payload in
  match currentPingMap state with
  | None => set_currentPingMap (Some {[ key := ping_map ]}) state
  | Some cpm =>
      match cpm !! key with
      | Some map =>
          set_currentPingMap
            (Some (<[key := assignEntries map (map_to_list ping_map)]> cpm))
            state
      | None => set_currentPingMap (Some (<[key := ping_map]> cpm)) state
      end
  end.

(** [extraReducers]: the lifecycle actions of the [createGame] thunk. *)
Definition createGame_pending (state : GameState) : GameState :=
  {| createGameLoading := true;
     createGameError := None;
     currentGame := currentGame state;
     currentNodeId := None;
     currentNodeLoading := currentNodeLoading state;
     currentPingMap := currentPingMap state;
     pingSnapshotLoading := pingSnapshotLoading state;
     pingSnapshot := pingSnapshot state |}.

Definition createGame_rejected (state : GameState) (error : SerializedError.t)
  : GameState :=
  {| createGameLoading := false;
     createGameError := Some error;
     currentGame := currentGame state;
     currentNodeId := currentNodeId state;
     currentNodeLoading := currentNodeLoading state;
     currentPingMap := currentPingMap state;
     pingSnapshotLoading := pingSnapshotLoading state;
     pingSnapshot := pingSnapshot state |}.

(** The actions of the slice and its reducer. *)
Inductive Action : Type :=
  | ClearGameCreateError
  | UpdateCurrentGame (payload : option GameInfo.t)
  | UpdateSlot (payload : GameSlotUpdateMessage.t)
  | StartUpdateNode
  | UpdateNode (payload : GameSelectNodeMessage.t)
  | UpdatePlayerEnter (payload : GamePlayerEnterMessage.t)
  | UpdatePlayerLeave (payload : GamePlayerLeaveMessage.t)
  | StartLoadPingSnapshot
  | SetPingSnapshot (payload : JsObject)
  | UpdateCurrentPing (payload : GamePlayerPingMapUpdateMessage.t)
  | CreateGamePending
  | CreateGameRejected (error : SerializedError.t).

Definition reducer (state : GameState) (a : Action) : result GameState :=
  match a with
  | ClearGameCreateError => Ok (clearGameCreateError state)
  | UpdateCurrentGame p => Ok (updateCurrentGame state p)
  | UpdateSlot p => updateSlot state p
  | StartUpdateNode => Ok (startUpdateNode state)
  | UpdateNode p => Ok (updateNode state p)
  | UpdatePlayerEnter p => Ok (updatePlayerEnter state p)
  | UpdatePlayerLeave p => updatePlayerLeave state p
  | StartLoadPingSnapshot => Ok (startLoadPingSnapshot state)
  | SetPingSnapshot p => Ok (setPingSnapshot state p)
  | UpdateCurrentPing p => Ok (updateCurrentPing state p)
  | CreateGamePending => Ok (createGame_pending state)
  | CreateGameRejected e => Ok (createGame_rejected state e)
  end.

(** The mutations that carry a [game_id], with the id they carry. *)
Definition carried_game_id (a : Action) : option Z :=
  match a with
  | UpdateSlot p => Some (GameSlotUpdateMessage.game_id p)
  | UpdateNode p => Some (GameSelectNodeMessage.game_id p)
  | UpdatePlayerEnter p => Some (GamePlayerEnterMessage.game_id p)
  | UpdatePlayerLeave p => Some (GamePlayerLeaveMessage.game_id p)
  | _ => None
  end.

(** Replaying a sequence of ping deltas. *)
Definition applyPings (state : GameState)
    (deltas : list GamePlayerPingMapUpdateMessage.t) : GameState :=
  foldl updateCurrentPing state deltas.

(** *** [mergePing] as the spec words it

    "If no map exists for [player_id], install the delta as-is; otherwise
    merge key-by-key (delta entries overwrite existing entries for the same
    node, other existing entries untouched)." *)
Definition overwrite (delta_entry existing_entry : option Z) : option Z :=
  match delta_entry with
  | Some ping => Some ping
  | None => existing_entry
  end.

Definition mergePing (maps : option GamePlayerPingMap) (player_id : Z)
    (delta : PingMap) : GamePlayerPingMap :=
  let key := propertyKey player_id in
  match default ∅ maps !! key with
  | None => <[key := delta]> (default ∅ maps)
  | Some existing => <[key := merge overwrite delta existing]> (default ∅ maps)
  end.

(** The property key and the map of a delta. *)
Abbreviation keyOf d := (propertyKey (GamePlayerPingMapUpdateMessage.player_id d)).
Abbreviation deltaOf d := (GamePlayerPingMapUpdateMessage.ping_map d).

(** The map a state holds for the player key [k], if any, and the ping it
    holds for the player key [k] and the node [n], if any. *)
Definition mapOf (state : GameState) (k : string) : option PingMap :=
  currentPingMap state ≫= (.!! k).

Definition pingOf (state : GameState) (k n : string) : option Z :=
  mapOf state k ≫= (.!! n).

(** A delta affects the pair [(player_id, node_id)] when it is a delta of
    that player with an entry for that node. *)
Definition touches (player_id : Z) (node_id : string)
    (d : GamePlayerPingMapUpdateMessage.t) : Prop :=
  GamePlayerPingMapUpdateMessage.player_id d = player_id ∧
  is_Some (GamePlayerPingMapUpdateMessage.ping_map d !! node_id).

#[global] Instance touches_dec player_id node_id d :
  Decision (touches player_id node_id d).
Proof. unfold touches. apply _. Defined.

(** Two deltas affect disjoint sets of pairs. *)
Definition disjointDeltas (d1 d2 : GamePlayerPingMapUpdateMessage.t) : Prop :=
  ∀ player_id node_id,
    ¬ (touches player_id node_id d1 ∧ touches player_id node_id d2).

End Game.

(* ------------------------------------------------------------------- *)
(** ** The [ws] slice (store/features/ws)                               *)
(* ------------------------------------------------------------------- *)

Module Ws.

(** Modelled from the spec: types/ws is missing from the sources.  The
    link status has the four values the spec lists; [ClientInfoMessage]
    and [PlayerSessionMessage] are plain objects ([JsObject]). *)
Inductive WsStatus : Type := Idle | Connecting | Connected | Disconnected.

(** [ErrorMessage] / [DisconnectMessage]: the body is a [message]. *)
Module ErrorMessage.
Record t : Type := mk { message : string }.
End ErrorMessage.

(** The object literal [{ message: m }]. *)
Definition errorOfMessage (m : string) : SerializedError.t :=
  {| SerializedError.name := None;
     SerializedError.message := Some m;
     SerializedError.stack := None;
     SerializedError.code := None |}.

(** [interface WsState].  A field that is [null] or [undefined] is [None];
    [error] is the only field that is absent from [initialState]. *)
Record WsState : Type := mkWsState {
  status : WsStatus;
  error : option SerializedError.t;
  clientInfo : option JsObject;
  clientInfoReloading : bool;
  clientInfoReloadError : option SerializedError.t;
  playerSession : option JsObject;
  playerSessionLoading : bool;
  playerSessionError : option SerializedError.t;
  disconnectError : option SerializedError.t
}.

Definition initialState : WsState :=
  {| status := Idle;
     error := None;
     clientInfo := None;
     clientInfoReloading := false;
     clientInfoReloadError := None;
     playerSession := None;
     playerSessionLoading := false;
     playerSessionError := None;
     disconnectError := None |}.

(** *** Reducers *)

Definition updateStatus (state : WsState) (payload : WsStatus) : WsState :=
  {| status := payload;
     error := error state;
     clientInfo := clientInfo state;
     clientInfoReloading := clientInfoReloading state;
     clientInfoReloadError := clientInfoReloadError state;
     playerSession := playerSession state;
     playerSessionLoading := playerSessionLoading state;
     playerSessionError := playerSessionError state;
     disconnectError := disconnectError state |}.

(** [if (action.payload)]: an error object is truthy, [null] is not. *)
Definition updateError (state : WsState) (payload : option SerializedError.t)
  : WsState :=
  {| status := match payload with
               | Some _ => Disconnected
               | None => status state
               end;
     error := payload;
     clientInfo := clientInfo state;
     clientInfoReloading := clientInfoReloading state;
     clientInfoReloadError := clientInfoReloadError state;
     playerSession := playerSession state;
     playerSessionLoading := playerSessionLoading state;
     playerSessionError := playerSessionError state;
     disconnectError := disconnectError state |}.

Definition updateClientInfo (state : WsState) (payload : option JsObject)
  : WsState :=
  {| status := status state;
     error := error state;
     clientInfo := payload;
     clientInfoReloading := clientInfoReloading state;
     clientInfoReloadError := clientInfoReloadError state;
     playerSession := playerSession state;
     playerSessionLoading := playerSessionLoading state;
     playerSessionError := playerSessionError state;
     disconnectError := disconnectError state |}.

Definition updateReloadClientInfoError (state : WsState) (payload : ErrorMessage.t)
  : WsState :=
  {| status := status state;
     error := error state;
     clientInfo := clientInfo state;
     clientInfoReloading := false;
     clientInfoReloadError := Some (errorOfMessage (ErrorMessage.message payload));
     playerSession := playerSession state;
     playerSessionLoading := playerSessionLoading state;
     playerSessionError := playerSessionError state;
     disconnectError := disconnectError state |}.

Definition updateClientInfoReloading (state : WsState) (payload : bool) : WsState :=
  {| status := status state;
     error := error state;
     clientInfo := clientInfo state;
     clientInfoReloading := payload;
     clientInfoReloadError := clientInfoReloadError state;
     playerSession := playerSession state;
     playerSessionLoading := playerSessionLoading state;
     playerSessionError := playerSessionError state;
     disconnectError := disconnectError state |}.

Definition updatePlayerSession (state : WsState) (payload : option JsObject)
  : WsState :=
  {| status := status state;
     error := error state;
     clientInfo := clientInfo state;
     clientInfoReloading := clientInfoReloading state;
     clientInfoReloadError := clientInfoReloadError state;
     playerSession := payload;
     playerSessionLoading := false;
     playerSessionError := playerSessionError state;
     disconnectError := disconnectError state |}.

(** [{ ...state.playerSession, ...action.payload }]: spreading [null]
    contributes nothing, and the properties of the payload, spread last,
    win over those of the session. *)
Definition updatePlayerSessionPartial (state : WsState) (payload : JsObject)
  : WsState :=
  {| status := status state;
     error := error state;
     clientInfo := clientInfo state;
     clientInfoReloading := clientInfoReloading state;
     clientInfoReloadError := clientInfoReloadError state;
     playerSession := Some (payload ∪ default ∅ (playerSession state));
     playerSessionLoading := false;
     playerSessionError := playerSessionError state;
     disconnectError := disconnectError state |}.

Definition updatePlayerSessionLoading (state : WsState) (payload : bool) : WsState :=
  {| status := status state;
     error := error state;
     clientInfo := clientInfo state;
     clientInfoReloading := clientInfoReloading state;
     clientInfoReloadError := clientInfoReloadError state;
     playerSession := playerSession state;
     playerSessionLoading := payload;
     playerSessionError := None;
     disconnectError := disconnectError state |}.

Definition updatePlayerSessionError (state : WsState)
    (payload : option SerializedError.t) : WsState :=
  {| status := status state;
     error := error state;
     clientInfo := clientInfo state;
     clientInfoReloading := clientInfoReloading state;
     clientInfoReloadError := clientInfoReloadError state;
     playerSession := None;
     playerSessionLoading := false;
     playerSessionError := payload;
     disconnectError := disconnectError state |}.

(** Both [if]s reset a flag that is set, so the flags end up [false]. *)
Definition setWsDisconnected (state : WsState) : WsState :=
  {| status := Disconnected;
     error := error state;
     clientInfo := None;
     clientInfoReloading :=
       if clientInfoReloading state then false else clientInfoReloading state;
     clientInfoReloadError := clientInfoReloadError state;
     playerSession := None;
     playerSessionLoading :=
       if playerSessionLoading state then false else playerSessionLoading state;
     playerSessionError := playerSessionError state;
     disconnectError := disconnectError state |}.

Definition setDisconnectError (state : WsState)
    (payload : option SerializedError.t) : WsState :=
  {| status := status state;
     error := error state;
     clientInfo := clientInfo state;
     clientInfoReloading := clientInfoReloading state;
     clientInfoReloadError := clientInfoReloadError state;
     playerSession := playerSession state;
     playerSessionLoading := playerSessionLoading state;
     playerSessionError := playerSessionError state;
     disconnectError := payload |}.

(** [wsSlice.actions] and [wsSlice.reducer] ([extraReducers] is empty). *)
Inductive Action : Type :=
  | UpdateStatus (payload : WsStatus)
  | UpdateError (payload : option SerializedError.t)
  | UpdateClientInfo (payload : option JsObject)
  | UpdateReloadClientInfoError (payload : ErrorMessage.t)
  | UpdateClientInfoReloading (payload : bool)
  | UpdatePlayerSession (payload : option JsObject)
  | UpdatePlayerSessionPartial (payload : JsObject)
  | UpdatePlayerSessionLoading (payload : bool)
  | UpdatePlayerSessionError (payload : option SerializedError.t)
  | SetWsDisconnected
  | SetDisconnectError (payload : option SerializedError.t).

Definition reducer (state : WsState) (a : Action) : WsState :=
  match a with
  | UpdateStatus p => updateStatus state p
  | UpdateError p => updateError state p
  | UpdateClientInfo p => updateClientInfo state p
  | UpdateReloadClientInfoError p => updateReloadClientInfoError state p
  | UpdateClientInfoReloading p => updateClientInfoReloading state p
  | UpdatePlayerSession p => updatePlayerSession state p
  | UpdatePlayerSessionPartial p => updatePlayerSessionPartial state p
  | UpdatePlayerSessionLoading p => updatePlayerSessionLoading state p
  | UpdatePlayerSessionError p => updatePlayerSessionError state p
  | SetWsDisconnected => setWsDisconnected state
  | SetDisconnectError p => setDisconnectError state p
  end.

(** The state after a sequence of operations, applied in order. *)
Definition run (state : WsState) (ops : list Action) : WsState :=
  foldl reducer state ops.

(** An operation that cannot move the status away from [Disconnected]:
    anything but [updateStatus] with another status. *)
Definition keepsDisconnected (a : Action) : bool :=
  match a with
  | UpdateStatus Disconnected => true
  | UpdateStatus _ => false
  | _ => true
  end.

(** "A non-null error forces [status = Disconnected]". *)
Definition errorImpliesDisconnected (state : WsState) : Prop :=
  error state ≠ None → status state = Disconnected.

End Ws.

(* ------------------------------------------------------------------- *)
(** ** [dispatchMessage] (store/features/ws)                            *)
(* ------------------------------------------------------------------- *)

Module Dispatch.

(** Modelled from the spec: the enumeration [WsMessageTypeId] (types/ws) is
    missing from the sources; it has the tags the sources name: the three
    request tags the thunks send and the tags [dispatchMessage] handles. *)
Inductive WsMessageTypeId : Type :=
  | ReloadClientInfo
  | Connect
  | GamePlayerPingMapSnapshotRequest
  | ClientInfo
  | ReloadClientInfoError
  | PlayerSession
  | PlayerSessionUpdate
  | ConnectRejected
  | Disconnect
  | ListMaps
  | ListMapsError
  | GetMapDetail
  | GetMapDetailError
  | CurrentGameInfo
  | GamePlayerEnter
  | GamePlayerLeave
  | GameSlotUpdate
  | ListNodes
  | PingUpdate
  | GamePlayerPingMapSnapshot
  | GameSelectNode
  | PlayerPingMapUpdate
  | GameStartReject
  | GameStarting
  | GameStarted
  | GameStartError
  | GameSlotClientStatusUpdate
  | GameStatusUpdate.

(** [WsMessage]: a tag and the body the tag determines.  The casts
    [msg as XMessage] of [dispatchMessage] are unchecked, so a message is
    given with the body type its tag is cast to. *)
Inductive WsMessage : Type :=
  | MReloadClientInfo
  | MConnect (token : string)
  | MGamePlayerPingMapSnapshotRequest (game_id : Z)
  | MClientInfo (body : JsObject)
  | MReloadClientInfoError (body : Ws.ErrorMessage.t)
  | MPlayerSession (body : JsObject)
  | MPlayerSessionUpdate (body : JsObject)
  | MConnectRejected (body : Ws.ErrorMessage.t)
  | MDisconnect (body : Ws.ErrorMessage.t)
  | MListMaps (data : JsObject)
  | MListMapsError (body : SerializedError.t)
  | MGetMapDetail (body : JsObject)
  | MGetMapDetailError (body : SerializedError.t)
  | MCurrentGameInfo (body : Game.GameInfo.t)
  | MGamePlayerEnter (body : Game.GamePlayerEnterMessage.t)
  | MGamePlayerLeave (body : Game.GamePlayerLeaveMessage.t)
  | MGameSlotUpdate (body : Game.GameSlotUpdateMessage.t)
  | MListNodes (nodes : JsObject)
  | MPingUpdate (body : JsObject)
  | MGamePlayerPingMapSnapshot (body : JsObject)
  | MGameSelectNode (body : Game.GameSelectNodeMessage.t)
  | MPlayerPingMapUpdate (body : Game.GamePlayerPingMapUpdateMessage.t)
  | MGameStartReject (body : JsObject)
  | MGameStarting (body : JsObject)
  | MGameStarted (body : JsObject)
  | MGameStartError (body : SerializedError.t)
  | MGameSlotClientStatusUpdate (body : JsObject)
  | MGameStatusUpdate (body : JsObject).

(** [msg.type] *)
Definition type (msg : WsMessage) : WsMessageTypeId :=
  match msg with
  | MReloadClientInfo => ReloadClientInfo
  | MConnect _ => Connect
  | MGamePlayerPingMapSnapshotRequest _ => GamePlayerPingMapSnapshotRequest
  | MClientInfo _ => ClientInfo
  | MReloadClientInfoError _ => ReloadClientInfoError
  | MPlayerSession _ => PlayerSession
  | MPlayerSessionUpdate _ => PlayerSessionUpdate
  | MConnectRejected _ => ConnectRejected
  | MDisconnect _ => Disconnect
  | MListMaps _ => ListMaps
  | MListMapsError _ => ListMapsError
  | MGetMapDetail _ => GetMapDetail
  | MGetMapDetailError _ => GetMapDetailError
  | MCurrentGameInfo _ => CurrentGameInfo
  | MGamePlayerEnter _ => GamePlayerEnter
  | MGamePlayerLeave _ => GamePlayerLeave
  | MGameSlotUpdate _ => GameSlotUpdate
  | MListNodes _ => ListNodes
  | MPingUpdate _ => PingUpdate
  | MGamePlayerPingMapSnapshot _ => GamePlayerPingMapSnapshot
  | MGameSelectNode _ => GameSelectNode
  | MPlayerPingMapUpdate _ => PlayerPingMapUpdate
  | MGameStartReject _ => GameStartReject
  | MGameStarting _ => GameStarting
  | MGameStarted _ => GameStarted
  | MGameStartError _ => GameStartError
  | MGameSlotClientStatusUpdate _ => GameSlotClientStatusUpdate
  | MGameStatusUpdate _ => GameStatusUpdate
  end.

(** The tags that have a [case] in the [switch] of [dispatchMessage]. *)
Definition recognized (t : WsMessageTypeId) : bool :=
  match t with
  | ReloadClientInfo | Connect | GamePlayerPingMapSnapshotRequest => false
  | _ => true
  end.

(** What [dispatchMessage] hands to [dispatch].  The action creators come
    from four modules: [wsSlice.actions], "./game", "./map" and "./node".
    Those of "./game" that the [game] slice above does not define
    ([checkCurrentGameId] and the game-start ones), and those of "./map" and
    "./node", are kept as opaque actions with their argument. *)
Inductive AppAction : Type :=
  | WsAction (a : Ws.Action)
  | GameAction (a : Game.Action)
  | checkCurrentGameId (game_id : option JsValue)
  | updateStartGameRejection (payload : JsObject)
  | updateStartGameLoading (payload : JsObject)
  | updateGameStarted (payload : JsObject)
  | updateStartGameError (payload : SerializedError.t)
  | updateSlotClientStatus (payload : JsObject)
  | updateGameStatus (payload : JsObject)
  | setMapListLoaded (data : JsObject)
  | setMapListLoadError (payload : SerializedError.t)
  | setMapDetailLoaded (payload : JsObject)
  | setMapLoadDetailLoadError (payload : SerializedError.t)
  | updateNodes (nodes : JsObject)
  | updateNodesPing (payload : JsObject).

(** The state owner an action is addressed to, by the module its action
    creator is imported from. *)
Inductive Collaborator : Type :=
  | ConnectionState
  | LobbyGameState
  | MapCache
  | NodeCatalog.

Definition collaborator (a : AppAction) : Collaborator :=
  match a with
  | WsAction _ => ConnectionState
  | GameAction _
  | checkCurrentGameId _
  | updateStartGameRejection _
  | updateStartGameLoading _
  | updateGameStarted _
  | updateStartGameError _
  | updateSlotClientStatus _
  | updateGameStatus _ => LobbyGameState
  | setMapListLoaded _
  | setMapListLoadError _
  | setMapDetailLoaded _
  | setMapLoadDetailLoadError _ => MapCache
  | updateNodes _
  | updateNodesPing _ => NodeCatalog
  end.

#[global] Instance Collaborator_eq_dec : EqDecision Collaborator.
Proof. solve_decision. Defined.

(** The effects of one call: the route pushed on the router, if any, and
    the actions dispatched, in order. *)
Record Effects : Type := mkEffects {
  pushed : option string;
  dispatched : list AppAction
}.

Definition only (l : list AppAction) : Effects :=
  {| pushed := None; dispatched := l |}.

Definition dispatchMessage (pathname : string) (msg : WsMessage) : Effects :=
  match msg with
  | MClientInfo m =>
      only [WsAction (Ws.UpdateClientInfo (Some m))]
  | MReloadClientInfoError e =>
      only [WsAction (Ws.UpdateReloadClientInfoError e)]
  | MPlayerSession m =>
      only [WsAction (Ws.UpdatePlayerSession (Some m))]
  | MPlayerSessionUpdate payload =>
      only [checkCurrentGameId (payload !! "game_id");
            WsAction (Ws.UpdatePlayerSessionPartial payload)]
  | MConnectRejected e =>
      only [WsAction (Ws.UpdatePlayerSessionError
                        (Some (Ws.errorOfMessage (Ws.ErrorMessage.message e))))]
  | MDisconnect payload =>
      let error := Ws.errorOfMessage (Ws.ErrorMessage.message payload) in
      only [WsAction (Ws.UpdatePlayerSessionError (Some error));
            WsAction (Ws.SetDisconnectError (Some error))]
  | MListMaps data => only [setMapListLoaded data]
  | MListMapsError e => only [setMapListLoadError e]
  | MGetMapDetail m => only [setMapDetailLoaded m]
  | MGetMapDetailError e => only [setMapLoadDetailLoadError e]
  | MCurrentGameInfo g =>
      {| pushed := if decide (pathname ≠ "/lobby") then Some "/lobby" else None;
         dispatched := [GameAction (Game.UpdateCurrentGame (Some g))] |}
  | MGamePlayerEnter payload => only [GameAction (Game.UpdatePlayerEnter payload)]
  | MGamePlayerLeave payload => only [GameAction (Game.UpdatePlayerLeave payload)]
  | MGameSlotUpdate payload => only [GameAction (Game.UpdateSlot payload)]
  | MListNodes nodes => only [updateNodes nodes]
  | MPingUpdate payload => only [updateNodesPing payload]
  | MGamePlayerPingMapSnapshot payload =>
      only [GameAction (Game.SetPingSnapshot payload)]
  | MGameSelectNode payload => only [GameAction (Game.UpdateNode payload)]
  | MPlayerPingMapUpdate payload =>
      only [GameAction (Game.UpdateCurrentPing payload)]
  | MGameStartReject payload => only [updateStartGameRejection payload]
  | MGameStarting m => only [updateStartGameLoading m]
  | MGameStarted m => only [updateGameStarted m]
  | MGameStartError e => only [updateStartGameError e]
  | MGameSlotClientStatusUpdate m => only [updateSlotClientStatus m]
  | MGameStatusUpdate m => only [updateGameStatus m]
  | MReloadClientInfo | MConnect _ | MGamePlayerPingMapSnapshotRequest _ =>
      only []
  end.

(** The [ws] slice has no [extraReducers]: its state changes on the
    actions of [wsSlice.actions] and on no other action. *)
Definition wsReduce (state : Ws.WsState) (a : AppAction) : Ws.WsState :=
  match a with
  | WsAction a' => Ws.reducer state a'
  | _ => state
  end.

(** The [ws] state once every action of [dispatchMessage] is reduced. *)
Definition wsAfterMessage (pathname : string) (state : Ws.WsState)
    (msg : WsMessage) : Ws.WsState :=
  foldl wsReduce state (dispatched (dispatchMessage pathname msg)).

(** The collaborators a call touches, without repetition. *)
Definition touched (pathname : string) (msg : WsMessage) : list Collaborator :=
  remove_dups (collaborator <$> dispatched (dispatchMessage pathname msg)).

End Dispatch.

(* ------------------------------------------------------------------- *)
(** ** The generated class [proto.node.Node] (generated/node_pb.js)     *)
(* ------------------------------------------------------------------- *)

(** Exceptions in the codec: [e ≫= k] and [x ← e; k] stop at a [Throw]. *)
#[global] Instance result_bind : MBind result :=
  λ A B (k : A → result B) (r : result A),
    match r with
    | Ok a => k a
    | Throw => Throw
    end.

#[global] Instance result_fmap : FMap result :=
  λ A B (f : A → B) (r : result A),
    match r with
    | Ok a => Ok (f a)
    | Throw => Throw
    end.

Module NodePb.

(** The generated code calls the [jspb] runtime (package google-protobuf),
    a dependency of the repository.  The classes it uses, [jspb.Message],
    [jspb.BinaryWriter] and [jspb.BinaryReader], are given here by what
    their methods do on the protobuf wire format.  A failed
    [goog.asserts] check is a [Throw].

    A byte is an integer in [0, 256).  A JS string is represented by the
    string of its UTF-8 bytes, which is what [writeString] puts on the wire
    and what [readString] consumes; a string is empty iff its UTF-8 is. *)

Abbreviation bytes := (list Z).

Definition utf8 (s : string) : bytes :=
  (λ a, Z.of_N (Ascii.N_of_ascii a)) <$> String.list_ascii_of_string s.

Definition fromUtf8 (bs : bytes) : string :=
  String.string_of_list_ascii ((λ b, Ascii.ascii_of_N (Z.to_N b)) <$> bs).

(** [x | 0] / [~~x]: the signed 32-bit integer of a number, and [x >>> 0]:
    the unsigned one. *)
Definition toInt32 (x : Z) : Z := (x + 2 ^ 31) mod 2 ^ 32 - 2 ^ 31.
Definition toUint32 (x : Z) : Z := x mod 2 ^ 32.

(** [jspb.BinaryConstants.WireType] *)
Definition VARINT : Z := 0.
Definition FIXED64 : Z := 1.
Definition DELIMITED : Z := 2.
Definition START_GROUP : Z := 3.
Definition END_GROUP : Z := 4.
Definition FIXED32 : Z := 5.

(** *** [jspb.BinaryEncoder] *)

(** [while (value > 127) { push((value & 0x7f) | 0x80); value >>>= 7 }
    push(value)]: a value below [2^32] leaves the loop within four
    rounds. *)
Fixpoint writeUnsignedVarint (rounds : nat) (value : Z) : bytes :=
  match rounds with
  | O => [value]
  | S rounds' =>
      if decide (value > 127)
      then Z.lor (Z.land value 127) 128 :: writeUnsignedVarint rounds' (Z.shiftr value 7)
      else [value]
  end.

Definition writeUnsignedVarint32 (value : Z) : bytes :=
  writeUnsignedVarint 4 value.

(** [for (i = 0; i < 9; i++) { push((value & 0x7f) | 0x80); value >>= 7 }] *)
Fixpoint writeSignExtended (rounds : nat) (value : Z) : bytes :=
  match rounds with
  | O => []
  | S rounds' =>
      Z.lor (Z.land value 127) 128 :: writeSignExtended rounds' (Z.shiftr value 7)
  end.

(** A negative value is written as the ten bytes of its 64-bit two's
    complement: nine groups of seven bits, then the sign bit. *)
Definition writeSignedVarint32 (value : Z) : bytes :=
  if decide (value >= 0) then writeUnsignedVarint32 value
  else writeSignExtended 9 value ++ [1].

(** *** [jspb.BinaryWriter]: the writer is the buffer filled so far *)

Definition writeFieldHeader_ (field wireType : Z) : bytes :=
  writeUnsignedVarint32 (field * 8 + wireType).

(** The record of an [int32] field: header, then the value as a varint. *)
Definition int32Record (field value : Z) : bytes :=
  writeFieldHeader_ field VARINT ++ writeSignedVarint32 value.

(** The record of a [string] field: header, length of the UTF-8 encoding,
    the encoding. *)
Definition stringRecord (field : Z) (value : string) : bytes :=
  writeFieldHeader_ field DELIMITED
    ++ writeUnsignedVarint32 (Z.of_nat (length (utf8 value)))
    ++ utf8 value.

(** [writeInt32] asserts that the value is a signed 32-bit integer. *)
Definition writeInt32 (writer : bytes) (field value : Z) : result bytes :=
  if decide (- 2 ^ 31 <= value < 2 ^ 31)
  then Ok (writer ++ int32Record field value)
  else Throw.

Definition writeString (writer : bytes) (field : Z) (value : string) : bytes :=
  writer ++ stringRecord field value.

(** *** [jspb.BinaryDecoder]: the decoder is the rest of the input, from
    the cursor to the end *)

(** The bytes of the varint at the cursor, up to [limit] of them: all
    bytes up to the first one below 128.  Running past the end of the
    input, or past the limit, fails an assertion. *)
Fixpoint readVarintBytes (limit : nat) (decoder : bytes) : result (bytes * bytes) :=
  match limit with
  | O => Throw
  | S limit' =>
      match decoder with
      | [] => Throw
      | b :: rest =>
          if decide (b < 128) then Ok ([b], rest)
          else '(group, rest') ← readVarintBytes limit' rest; Ok (b :: group, rest')
      end
  end.

(** [x |= (b & 0x7f) << shift], lowest group first. *)
Fixpoint varintValue (group : bytes) : Z :=
  match group with
  | [] => 0
  | b :: group' => Z.lor (Z.land b 127) (Z.shiftl (varintValue group') 7)
  end.

(** [readUnsignedVarint32] keeps the low 32 bits of a varint of up to ten
    bytes; up to five bytes it returns [x >>> 0], beyond it returns the
    32-bit [x] as the bitwise operators left it. *)
Definition readUnsignedVarint32 (decoder : bytes) : result (Z * bytes) :=
  '(group, rest) ← readVarintBytes 10 decoder;
  let x := varintValue group in
  Ok (if decide (length group ≤ 5)%nat then toUint32 x else toInt32 x, rest).

(** [readSignedVarint32]: [~~this.readUnsignedVarint32()]. *)
Definition readSignedVarint32 (decoder : bytes) : result (Z * bytes) :=
  '(x, rest) ← readUnsignedVarint32 decoder; Ok (toInt32 x, rest).

(** [skipVarint]: [while (bytes[cursor] & 0x80) cursor++; cursor++]. *)
Fixpoint skipVarint (decoder : bytes) : result bytes :=
  match decoder with
  | [] => Throw
  | b :: rest => if decide (Z.land b 128 ≠ 0) then skipVarint rest else Ok rest
  end.

(** [advance(count)] asserts that the cursor stays within the input.  The
    count is a length read from the input, and no length the writer emits
    is negative.  (A negative count, which only an over-long varint gives,
    moves the cursor of the runtime back; the decoder here holds the rest
    of the input only and stays in place.) *)
Definition advance (count : Z) (decoder : bytes) : result bytes :=
  if decide (count <= Z.of_nat (length decoder))
  then Ok (drop (Z.to_nat count) decoder)
  else Throw.

(** [readString(length)]: the next [length] bytes, as a string.  On the
    UTF-8 encoding of a string, which is what the writer emits, these are
    the bytes of that string.  (On bytes that are not well-formed UTF-8
    the decoder of the runtime goes its own way.) *)
Definition decoderReadString (len : Z) (decoder : bytes) : result (string * bytes) :=
  if decide (len <= Z.of_nat (length decoder))
  then Ok (fromUtf8 (take (Z.to_nat len) decoder), drop (Z.to_nat len) decoder)
  else Throw.

(** *** [jspb.BinaryReader] *)

Record BinaryReader : Type := mkReader {
  decoder_ : bytes;
  nextField_ : Z;
  nextWireType_ : Z
}.

(** [new jspb.BinaryReader(bytes)] *)
Definition newReader (input : bytes) : BinaryReader :=
  {| decoder_ := input; nextField_ := -1; nextWireType_ := -1 |}.

Definition validWireType (w : Z) : bool :=
  bool_decide (w = VARINT ∨ w = FIXED32 ∨ w = FIXED64 ∨ w = DELIMITED ∨
               w = START_GROUP ∨ w = END_GROUP).

(** [nextField]: [false] at the end of the input; otherwise reads the
    header, [nextField = header >>> 3], [nextWireType = header & 7]. *)
Definition nextField (reader : BinaryReader) : result (bool * BinaryReader) :=
  match decoder_ reader with
  | [] => Ok (false, reader)
  | _ =>
      '(header, rest) ← readUnsignedVarint32 (decoder_ reader);
      let nextField := Z.shiftr (toUint32 header) 3 in
      let nextWireType := Z.land header 7 in
      if validWireType nextWireType
      then Ok (true, {| decoder_ := rest;
                        nextField_ := nextField;
                        nextWireType_ := nextWireType |})
      else Throw
  end.

Definition isEndGroup (reader : BinaryReader) : bool :=
  bool_decide (nextWireType_ reader = END_GROUP).

Definition getFieldNumber (reader : BinaryReader) : Z := nextField_ reader.

Definition withDecoder (reader : BinaryReader) (rest : bytes) : BinaryReader :=
  {| decoder_ := rest;
     nextField_ := nextField_ reader;
     nextWireType_ := nextWireType_ reader |}.

(** [readInt32] asserts the wire type [VARINT]. *)
Definition readInt32 (reader : BinaryReader) : result (Z * BinaryReader) :=
  if decide (nextWireType_ reader = VARINT)
  then '(value, rest) ← readSignedVarint32 (decoder_ reader);
       Ok (value, withDecoder reader rest)
  else Throw.

(** [readString] asserts the wire type [DELIMITED]. *)
Definition readString (reader : BinaryReader) : result (string * BinaryReader) :=
  if decide (nextWireType_ reader = DELIMITED)
  then '(len, rest) ← readUnsignedVarint32 (decoder_ reader);
       '(value, rest') ← decoderReadString len rest;
       Ok (value, withDecoder reader rest')
  else Throw.

(** [skipField] and the loop of [skipGroup]; [fuel] bounds the number of
    fields entered, which the length of the input bounds. *)
Fixpoint skipField_ (fuel : nat) (reader : BinaryReader) {struct fuel}
  : result BinaryReader :=
  match fuel with
  | O => Throw
  | S fuel' =>
      let w := nextWireType_ reader in
      if decide (w = VARINT) then
        withDecoder reader <$> skipVarint (decoder_ reader)
      else if decide (w = FIXED64) then
        withDecoder reader <$> advance 8 (decoder_ reader)
      else if decide (w = DELIMITED) then
        '(len, rest) ← readUnsignedVarint32 (decoder_ reader);
        withDecoder reader <$> advance len rest
      else if decide (w = FIXED32) then
        withDecoder reader <$> advance 4 (decoder_ reader)
      else if decide (w = START_GROUP) then
        skipGroup_ fuel' (nextField_ reader) reader
      else Throw
  end
with skipGroup_ (fuel : nat) (previousField : Z) (reader : BinaryReader)
    {struct fuel} : result BinaryReader :=
  match fuel with
  | O => Throw
  | S fuel' =>
      match nextField reader with
      | Ok (true, reader') =>
          if decide (nextWireType_ reader' = END_GROUP) then
            if decide (nextField_ reader' ≠ previousField) then Throw else Ok reader'
          else
            reader'' ← skipField_ fuel' reader';
            skipGroup_ fuel' previousField reader''
      | Ok (false, _) => Throw
      | Throw => Throw
      end
  end.

Definition skipField (reader : BinaryReader) : result BinaryReader :=
  skipField_ (S (length (decoder_ reader))) reader.

(** *** [jspb.Message] and the generated accessors *)

(** The array of the message: slot [k] holds field [k], [null] when not
    set. *)
Record Node : Type := mkNode {
  slot1 : option Z;
  slot2 : option string;
  slot3 : option string;
  slot4 : option string;
  slot5 : option string
}.

(** [new proto.node.Node] *)
Definition new : Node :=
  {| slot1 := None; slot2 := None; slot3 := None; slot4 := None; slot5 := None |}.

(** [jspb.Message.getFieldWithDefault]: the default for a [null] slot. *)
Definition getFieldWithDefault {A : Type} (slot : option A) (defaultValue : A) : A :=
  match slot with
  | Some value => value
  | None => defaultValue
  end.

(** [jspb.Message.setProto3IntField] / [setProto3StringField]: a value
    equal to the default clears the slot. *)
Definition setProto3IntField (value : Z) : option Z :=
  if decide (value ≠ 0) then Some value else None.

Definition setProto3StringField (value : string) : option string :=
  if decide (value ≠ "") then Some value else None.

Definition getId (msg : Node) : Z := getFieldWithDefault (slot1 msg) 0.
Definition getName (msg : Node) : string := getFieldWithDefault (slot2 msg) "".
Definition getLocation (msg : Node) : string := getFieldWithDefault (slot3 msg) "".
Definition getIpAddr (msg : Node) : string := getFieldWithDefault (slot4 msg) "".
Definition getCountryId (msg : Node) : string := getFieldWithDefault (slot5 msg) "".

Definition setId (msg : Node) (value : Z) : Node :=
  {| slot1 := setProto3IntField value; slot2 := slot2 msg; slot3 := slot3 msg;
     slot4 := slot4 msg; slot5 := slot5 msg |}.

Definition setName (msg : Node) (value : string) : Node :=
  {| slot1 := slot1 msg; slot2 := setProto3StringField value; slot3 := slot3 msg;
     slot4 := slot4 msg; slot5 := slot5 msg |}.

Definition setLocation (msg : Node) (value : string) : Node :=
  {| slot1 := slot1 msg; slot2 := slot2 msg; slot3 := setProto3StringField value;
     slot4 := slot4 msg; slot5 := slot5 msg |}.

Definition setIpAddr (msg : Node) (value : string) : Node :=
  {| slot1 := slot1 msg; slot2 := slot2 msg; slot3 := slot3 msg;
     slot4 := setProto3StringField value; slot5 := slot5 msg |}.

Definition setCountryId (msg : Node) (value : string) : Node :=
  {| slot1 := slot1 msg; slot2 := slot2 msg; slot3 := slot3 msg;
     slot4 := slot4 msg; slot5 := setProto3StringField value |}.

(** *** Serialization *)

(** [f.length > 0] *)
Definition nonEmpty (f : string) : bool := bool_decide (0 < String.length f)%nat.

(** [proto.node.Node.serializeBinaryToWriter] *)
Definition serializeBinaryToWriter (message : Node) (writer : bytes) : result bytes :=
  writer ←
    (let f := getId message in
     if decide (f ≠ 0) then writeInt32 writer 1 f else Ok writer);
  let writer :=
    let f := getName message in
    if nonEmpty f then writeString writer 2 f else writer in
  let writer :=
    let f := getLocation message in
    if nonEmpty f then writeString writer 3 f else writer in
  let writer :=
    let f := getIpAddr message in
    if nonEmpty f then writeString writer 4 f else writer in
  let writer :=
    let f := getCountryId message in
    if nonEmpty f then writeString writer 5 f else writer in
  Ok writer.

(** [proto.node.Node.prototype.serializeBinary] *)
Definition serializeBinary (message : Node) : result bytes :=
  serializeBinaryToWriter message [].

(** *** Deserialization *)

(** The [while (reader.nextField())] loop of
    [proto.node.Node.deserializeBinaryFromReader]; every round consumes at
    least the byte of a header, so [fuel] above the length of the input is
    never used up. *)
Fixpoint deserializeLoop (fuel : nat) (msg : Node) (reader : BinaryReader)
  : result Node :=
  match fuel with
  | O => Throw
  | S fuel' =>
      match nextField reader with
      | Ok (true, reader) =>
          if isEndGroup reader then Ok msg
          else
            let field := getFieldNumber reader in
            if decide (field = 1) then
              '(value, reader) ← readInt32 reader;
              deserializeLoop fuel' (setId msg value) reader
            else if decide (field = 2) then
              '(value, reader) ← readString reader;
              deserializeLoop fuel' (setName msg value) reader
            else if decide (field = 3) then
              '(value, reader) ← readString reader;
              deserializeLoop fuel' (setLocation msg value) reader
            else if decide (field = 4) then
              '(value, reader) ← readString reader;
              deserializeLoop fuel' (setIpAddr msg value) reader
            else if decide (field = 5) then
              '(value, reader) ← readString reader;
              deserializeLoop fuel' (setCountryId msg value) reader
            else
              reader ← skipField reader;
              deserializeLoop fuel' msg reader
      | Ok (false, _) => Ok msg
      | Throw => Throw
      end
  end.

Definition deserializeBinaryFromReader (msg : Node) (reader : BinaryReader)
  : result Node :=
  deserializeLoop (S (length (decoder_ reader))) msg reader.

(** [proto.node.Node.deserializeBinary] *)
Definition deserializeBinary (input : bytes) : result Node :=
  deserializeBinaryFromReader new (newReader input).

(** *** What is on the wire *)

(** The field numbers of the records of an input, in order, as a reader
    that skips every field finds them. *)
Fixpoint fieldNumbersLoop (fuel : nat) (reader : BinaryReader) : result (list Z) :=
  match fuel with
  | O => Throw
  | S fuel' =>
      match nextField reader with
      | Ok (true, reader) =>
          reader' ← skipField reader;
          rest ← fieldNumbersLoop fuel' reader';
          Ok (getFieldNumber reader :: rest)
      | Ok (false, _) => Ok []
      | Throw => Throw
      end
  end.

Definition fieldNumbers (input : bytes) : result (list Z) :=
  fieldNumbersLoop (S (length input)) (newReader input).

(** A message within the types of its schema: [id] is an [int32], and the
    UTF-8 length of every string fits the 32-bit length prefix (a JS
    string has fewer than [2^30] code units). *)
Definition wellTyped (msg : Node) : Prop :=
  - 2 ^ 31 <= getId msg < 2 ^ 31 ∧
  Z.of_nat (String.length (getName msg)) < 2 ^ 32 ∧
  Z.of_nat (String.length (getLocation msg)) < 2 ^ 32 ∧
  Z.of_nat (String.length (getIpAddr msg)) < 2 ^ 32 ∧
  Z.of_nat (String.length (getCountryId msg)) < 2 ^ 32.

(** The loops above on an input they have the fuel for: [decodesTo input f]
    when the deserialization loop, started on [input] with a message
    [msg], returns [f msg]; [listsFields input l] when the field numbers
    found on [input] are [l]. *)
Definition decodesTo (input : bytes) (f : Node → Node) : Prop :=
  ∀ (fuel : nat) (msg : Node) (fld wt : Z),
    (length input < fuel)%nat →
    deserializeLoop fuel msg (mkReader input fld wt) = Ok (f msg).

Definition listsFields (input : bytes) (l : list Z) : Prop :=
  ∀ (fuel : nat) (fld wt : Z),
    (length input < fuel)%nat →
    fieldNumbersLoop fuel (mkReader input fld wt) = Ok l.

(** The records [serializeBinaryToWriter] appends for a message, field by
    field, and the field numbers of those records. *)
Definition idRecord (msg : Node) : bytes :=
  if decide (getId msg ≠ 0) then int32Record 1 (getId msg) else [].

Definition optionalStringRecord (field : Z) (value : string) : bytes :=
  if nonEmpty value then stringRecord field value else [].

Definition writtenFields (msg : Node) : list Z :=
  (if decide (getId msg ≠ 0) then [1] else [])
  ++ (if nonEmpty (getName msg) then [2] else [])
  ++ (if nonEmpty (getLocation msg) then [3] else [])
  ++ (if nonEmpty (getIpAddr msg) then [4] else [])
  ++ (if nonEmpty (getCountryId msg) then [5] else []).

End NodePb.

(* ------------------------------------------------------------------- *)
(** ** Sample states and messages                                       *)
(* ------------------------------------------------------------------- *)

(** The scenario state of the spec: game 1 with one occupied slot held by
    player 7. *)
Definition player7 : Game.PlayerRef.t := Game.PlayerRef.mk 7 "seven".

Definition occupiedBy7 : Game.Slot.t :=
  Game.Slot.mk (Game.SlotSettings.mk Game.Occupied {[ "team" := 1 ]}) (Some player7).

Definition emptySlot : Game.Slot.t :=
  Game.Slot.mk (Game.SlotSettings.mk Game.Open ∅) None.

Definition game1 : Game.GameInfo.t :=
  Game.GameInfo.mk 1 [Some emptySlot; Some occupiedBy7] None.

Definition inGame1 : Game.GameState :=
  Game.updateCurrentGame Game.initialState (Some game1).

(** Two ping deltas of different players. *)
Definition deltaOf7 : Game.GamePlayerPingMapUpdateMessage.t :=
  Game.GamePlayerPingMapUpdateMessage.mk 7 {[ "9" := 42 ]}.

Definition deltaOf8 : Game.GamePlayerPingMapUpdateMessage.t :=
  Game.GamePlayerPingMapUpdateMessage.mk 8 {[ "9" := 30; "10" := 12 ]}.

(** A node descriptor with a negative id and two fields left at their
    defaults. *)
Definition sampleNode : NodePb.Node :=
  NodePb.mkNode (Some (-5)) (Some "eu-west") None (Some "10.0.0.1") (Some "").

(** A connection that is up, and the errors used below. *)
Definition connected : Ws.WsState :=
  Ws.updateStatus Ws.initialState Ws.Connected.

Definition timeout : SerializedError.t := Ws.errorOfMessage "timeout".

Definition kicked : Ws.ErrorMessage.t := Ws.ErrorMessage.mk "kicked".

(* ------------------------------------------------------------------- *)
(** ** Selectors of the [game] slice (store/features/game)              *)
(* ------------------------------------------------------------------- *)

Module GameSelectors.

(** The body of the [for (let slot of s.slots)] loop of
    [selectCurrentGamePlayers], from the players pushed so far: iterating
    reaches a hole as [undefined], whose [player] cannot be read. *)
Fixpoint pushPlayers (players : list Game.PlayerRef.t)
    (slots : list (option Game.Slot.t)) : result (list Game.PlayerRef.t) :=
  match slots with
  | [] => Ok players
  | None :: _ => Throw
  | Some slot :: rest =>
      pushPlayers
        (match Game.Slot.player slot with
         | Some player => players ++ [player]
         | None => players
         end)
        rest
  end.

(** [selectCurrentGamePlayers], as a function of [currentGame]. *)
Definition selectCurrentGamePlayers (s : option Game.GameInfo.t)
  : result (list Game.PlayerRef.t) :=
  match s with
  | None => Ok []
  | Some g => pushPlayers [] (Game.GameInfo.slots g)
  end.

(** Modelled from the spec: types/node is missing from the sources; a node
    of the catalog has the [id] and the [ping] (a number, or [null] while
    not measured) that the selectors read. *)
Module Node.
Record t : Type := mk {
  id : Z;
  ping : option Z
}.
End Node.

(** [selectCurrentNode], as a function of [currentNodeId] and of the nodes
    of the catalog: [!id] holds for [null] and for [0]. *)
Definition selectCurrentNode (id : option Z) (nodes : list Node.t) : option Node.t :=
  match id with
  | None => None
  | Some id =>
      if decide (id = 0) then None
      else if decide (length nodes = 0%nat) then None
      else list_find (λ node, Node.id node = id) nodes ≫= (λ found, Some found.2)
  end.

(** The loop of [selectCurrentNodePingMap]: [map[nodeIdString]] is a number
    when the map has the key. *)
Definition collectPings (nodeIdString : string) (r : gmap string (option Z))
    (entries : list (string * gmap string Z)) : gmap string (option Z) :=
  foldl (λ r e,
           match e.2 !! nodeIdString with
           | Some ping => <[e.1 := Some ping]> r
           | None => r
           end)
        r entries.

(** [selectCurrentNodePingMap], as a function of the selected node, of
    [currentPingMap] and of the id of [state.auth.playerInfo].  A value of
    the result is a ping or [null]. *)
Definition selectCurrentNodePingMap (node : option Node.t)
    (pingMap : option (gmap string (gmap string Z))) (playerInfo : option Z)
  : option (gmap string (option Z)) :=
  match node, pingMap, playerInfo with
  | Some node, Some pingMap, Some playerInfo_id =>
      let r := {[ propertyKey playerInfo_id := Node.ping node ]} in
      let nodeIdString := propertyKey (Node.id node) in
      Some (collectPings nodeIdString r (map_to_list pingMap))
  | _, _, _ => None
  end.

(** The game reducer as the store runs it, and a run of actions. *)
Definition step (state : Game.GameState) (a : Game.Action) : Game.GameState :=
  commit state (Game.reducer state a).

Definition run (state : Game.GameState) (actions : list Game.Action)
  : Game.GameState :=
  foldl step state actions.

(** Three couplings between a loading flag and the value it guards. *)
Definition loadingFlagsConsistent (state : Game.GameState) : Prop :=
  (Game.currentNodeLoading state = true → Game.currentNodeId state = None) ∧
  (Game.pingSnapshotLoading state = true → Game.pingSnapshot state = None) ∧
  (Game.createGameLoading state = true → Game.createGameError state = None).

(** No slot of the array is a hole. *)
Definition dense (slots : list (option Game.Slot.t)) : Prop :=
  ∀ j, slots !! j ≠ Some None.

End GameSelectors.

(* ------------------------------------------------------------------- *)
(** ** The thunks (store/features/ws, store/features/game)              *)
(* ------------------------------------------------------------------- *)

Module Thunks.

(** What the payload creator of a thunk does: the message it sends on the
    socket and the actions it dispatches itself. *)
Record Effects : Type := mkEffects {
  sent : Dispatch.WsMessage;
  dispatched : list Dispatch.AppAction
}.

(** [reloadClientInfo] *)
Definition reloadClientInfo : Effects :=
  {| sent := Dispatch.MReloadClientInfo;
     dispatched := [Dispatch.WsAction (Ws.UpdateClientInfoReloading true)] |}.

(** [connect] *)
Definition connect (token : string) : Effects :=
  {| sent := Dispatch.MConnect token;
     dispatched := [Dispatch.WsAction (Ws.UpdatePlayerSessionLoading true)] |}.

(** [loadPingSnapshot] *)
Definition loadPingSnapshot (game_id : Z) : Effects :=
  {| sent := Dispatch.MGamePlayerPingMapSnapshotRequest game_id;
     dispatched := [Dispatch.GameAction Game.StartLoadPingSnapshot] |}.

(** The [ws] state once the actions of a thunk are reduced. *)
Definition wsAfterThunk (state : Ws.WsState) (t : Effects) : Ws.WsState :=
  foldl Dispatch.wsReduce state (dispatched t).

(** The inbound tags that answer [connect] or update the session. *)
Definition sessionReply (t : Dispatch.WsMessageTypeId) : bool :=
  match t with
  | Dispatch.PlayerSession | Dispatch.PlayerSessionUpdate
  | Dispatch.ConnectRejected | Dispatch.Disconnect => true
  | _ => false
  end.

End Thunks.

(* ------------------------------------------------------------------- *)
(** ** [proto.node.Node.toObject] (generated/node_pb.js)                *)
(* ------------------------------------------------------------------- *)

Module NodeObject.

(** The object [toObject] builds (without [$jspbMessageInstance]). *)
Record t : Type := mk {
  id : Z;
  name : string;
  location : string;
  ipAddr : string;
  countryId : string
}.

Definition toObject (msg : NodePb.Node) : t :=
  {| id := NodePb.getFieldWithDefault (NodePb.slot1 msg) 0;
     name := NodePb.getFieldWithDefault (NodePb.slot2 msg) "";
     location := NodePb.getFieldWithDefault (NodePb.slot3 msg) "";
     ipAddr := NodePb.getFieldWithDefault (NodePb.slot4 msg) "";
     countryId := NodePb.getFieldWithDefault (NodePb.slot5 msg) "" |}.

(** A field number the [switch] of [deserializeBinaryFromReader] has no
    [case] for, whose header stays below [2^31]. *)
Definition unknownField (field : Z) : Prop := 6 <= field < 2 ^ 28.

(** A string of ASCII characters: every byte of its UTF-8 encoding is
    below 128 and is one character.  A message of such strings. *)
Definition asciiOnly (s : string) : Prop := Forall (λ b, b < 128) (NodePb.utf8 s).

Definition asciiNode (msg : NodePb.Node) : Prop :=
  asciiOnly (NodePb.getName msg) ∧
  asciiOnly (NodePb.getLocation msg) ∧
  asciiOnly (NodePb.getIpAddr msg) ∧
  asciiOnly (NodePb.getCountryId msg).

(** The setter that the [switch] of [deserializeBinaryFromReader] calls
    for the string field of number [field] (2 to 5). *)
Definition setString (field : Z) (msg : NodePb.Node) (value : string) : NodePb.Node :=
  if decide (field = 2) then NodePb.setName msg value
  else if decide (field = 3) then NodePb.setLocation msg value
  else if decide (field = 4) then NodePb.setIpAddr msg value
  else NodePb.setCountryId msg value.

(** What reading the records of [source] does to a message [target]: the
    setter of every field that [source] has on the wire, in field order. *)
Definition applyRecords (source target : NodePb.Node) : NodePb.Node :=
  let target :=
    if decide (NodePb.getId source ≠ 0)
    then NodePb.setId target (NodePb.getId source) else target in
  let target :=
    if NodePb.nonEmpty (NodePb.getName source)
    then NodePb.setName target (NodePb.getName source) else target in
  let target :=
    if NodePb.nonEmpty (NodePb.getLocation source)
    then NodePb.setLocation target (NodePb.getLocation source) else target in
  let target :=
    if NodePb.nonEmpty (NodePb.getIpAddr source)
    then NodePb.setIpAddr target (NodePb.getIpAddr source) else target in
  if NodePb.nonEmpty (NodePb.getCountryId source)
  then NodePb.setCountryId target (NodePb.getCountryId source) else target.

End NodeObject.

(* ------------------------------------------------------------------- *)
(** ** More sample values                                               *)
(* ------------------------------------------------------------------- *)





(** Player 9, who enters game 1 at the end of the array. *)
Definition player9 : Game.PlayerRef.t := Game.PlayerRef.mk 9 "nine".

Definition occupiedBy9 : Game.Slot.t :=
  Game.Slot.mk (Game.SlotSettings.mk Game.Occupied {[ "team" := 2 ]}) (Some player9).



(** The relay node 9, measured at 20 ms by the local player. *)
Definition node9 : GameSelectors.Node.t := GameSelectors.Node.mk 9 (Some 20).

(** A second node descriptor, with only a name. *)
Definition namedNode : NodePb.Node :=
  NodePb.mkNode None (Some "us-east") None None None.

(* ===================================================================== *)
(** * Part II: properties                                                 *)
(* ===================================================================== *)

(** ** The [game] slice *)

Section GameGuard.
Import Game.

Lemma matchingGame_stale (state : GameState) (game_id : Z) :
  (∀ g, currentGame state = Some g → GameInfo.id g ≠ game_id) →
  matchingGame state game_id = None.
Proof.
  intros Hstale. unfold matchingGame.
  destruct (currentGame state) as [g|] eqn:Hg; [|done].
  case_decide; [|done]. by destruct (Hstale g).
Qed.

Lemma matchingGame_current (state : GameState) (g : GameInfo.t) :
  currentGame state = Some g →
  matchingGame state (GameInfo.id g) = Some g.
Proof.
  intros Hg. unfold matchingGame. rewrite Hg. by rewrite decide_True.
Qed.

(** C1. A mutation that carries a [game_id] ([updateSlot], [updateNode],
    [updatePlayerEnter], [updatePlayerLeave]) returns the state it was
    given, whole, when there is no current game or when the current game
    has another id: [currentGame] and its slots, [currentNodeId],
    [currentNodeLoading], [currentPingMap] and [pingSnapshot] are all
    unchanged, and nothing is thrown. *)
Theorem stale_game_event_is_dropped (state : GameState) (a : Action) (game_id : Z) :
  carried_game_id a = Some game_id →
  (∀ g, currentGame state = Some g → GameInfo.id g ≠ game_id) →
  reducer state a = Ok state.
Proof.
  intros Hid Hstale.
  destruct a; simpl in Hid; try discriminate Hid;
    injection Hid as Hid; simpl;
    unfold updateSlot, updateNode, updatePlayerEnter, updatePlayerLeave;
    rewrite Hid, (matchingGame_stale _ _ Hstale); reflexivity.
Qed.

End GameGuard.

Section GameExamples.
Import Game.

Lemma stale_game_event_is_dropped_witness :
  carried_game_id (UpdatePlayerLeave (GamePlayerLeaveMessage.mk 2 7)) = Some 2 ∧
  (∀ g, currentGame inGame1 = Some g → GameInfo.id g ≠ 2) ∧
  reducer inGame1 (UpdatePlayerLeave (GamePlayerLeaveMessage.mk 2 7)) = Ok inGame1.
Proof.
  split; [reflexivity|].
  assert (Hstale : ∀ g, currentGame inGame1 = Some g → GameInfo.id g ≠ 2).
  { intros g Hg. injection Hg as <-. simpl. lia. }
  split; [exact Hstale|].
  apply (stale_game_event_is_dropped inGame1 _ 2); [reflexivity | exact Hstale].
Defined.

End GameExamples.

Section GameReplace.
Import Game.

(** C6. [updateCurrentGame] with a [null] payload yields a state without
    current game, without selected node, without ping map, with the node
    loading flag down and without game-creation error, whatever the state
    before. *)
Theorem updateCurrentGame_null (state : GameState) :
  let state' := updateCurrentGame state None in
  currentGame state' = None ∧
  currentNodeId state' = None ∧
  currentPingMap state' = None ∧
  currentNodeLoading state' = false ∧
  createGameError state' = None.
Proof. repeat split. Qed.

End GameReplace.

Section GamePlayerLeave.
Import Game.

Lemma find_from_first (cb : Slot.t → bool) (arr : list (option Slot.t)) :
  ∀ (k i : nat) (slot : Slot.t),
    arr !! i = Some (Some slot) →
    cb slot = true →
    (∀ j, (j < i)%nat → ∃ s, arr !! j = Some (Some s) ∧ cb s = false) →
    find_from cb k arr = Ok (Some ((k + i)%nat, slot)).
Proof.
  induction arr as [|o arr IH]; intros k i slot Hi Hcb Hbefore.
  - by rewrite lookup_nil in Hi.
  - destruct i as [|i]; simpl in Hi.
    + injection Hi as ->. simpl. rewrite Hcb. by rewrite Nat.add_0_r.
    + destruct (Hbefore 0%nat) as (s & Hs & Hcbs); [lia|].
      simpl in Hs. injection Hs as ->. simpl. rewrite Hcbs.
      rewrite (IH (S k) i slot Hi Hcb).
      * by rewrite Nat.add_succ_r.
      * intros j Hj. destruct (Hbefore (S j)) as (s' & Hs' & Hcbs'); [lia|].
        by exists s'.
Qed.



(** On an array without holes that has a matching slot, [find] selects
    the first of them. *)
Lemma find_from_some (cb : Slot.t → bool) (arr : list (option Slot.t)) :
  (∀ j, arr !! j ≠ Some None) →
  (∃ j s, arr !! j = Some (Some s) ∧ cb s = true) →
  ∃ i slot,
    arr !! i = Some (Some slot) ∧ cb slot = true ∧
    ∀ j, (j < i)%nat → ∃ s, arr !! j = Some (Some s) ∧ cb s = false.
Proof.
  induction arr as [|o arr IH]; intros Hdense (j & s & Hj & Hs).
  - by rewrite lookup_nil in Hj.
  - destruct o as [s0|]; [|by destruct (Hdense 0%nat)].
    destruct (cb s0) eqn:Hs0.
    + exists 0%nat, s0. split; [done|]. split; [done|]. intros j' Hj'. lia.
    + destruct j as [|j]; simpl in Hj.
      { injection Hj as ->. congruence. }
      destruct IH as (i & slot & Hi & Hcb & Hbefore).
      { intros j'. apply (Hdense (S j')). }
      { by exists j, s. }
      exists (S i), slot. split; [done|]. split; [done|].
      intros [|j'] Hlt; [by exists s0|].
      apply Hbefore. lia.
Qed.






End GamePlayerLeave.

Section GamePing.
Import Game.

Implicit Types (state : GameState) (d : GamePlayerPingMapUpdateMessage.t).
Implicit Types (m delta : gmap string Z) (k n : string).

(** The [for ... of Object.entries] loop writes every entry of the delta
    over the map and touches nothing else. *)
Lemma assignEntries_lookup (entries : list (string * Z)) :
  ∀ m n,
    NoDup entries.*1 →
    assignEntries m entries !! n =
      overwrite ((list_to_map entries : gmap string Z) !! n) (m !! n).
Proof.
  induction entries as [|[k0 v0] entries IH]; intros m n Hnd.
  - simpl. by rewrite lookup_empty.
  - apply NoDup_cons in Hnd as [Hk0 Hnd]. simpl.
    change (assignEntries (<[k0:=v0]> m) entries !! n =
            overwrite (<[k0:=v0]> (list_to_map entries : gmap string Z) !! n) (m !! n)).
    rewrite (IH _ _ Hnd).
    destruct (decide (k0 = n)) as [->|Hne].
    + rewrite !lookup_insert_eq.
      by rewrite (not_elem_of_list_to_map_1 (M := gmap string) _ _ Hk0).
    + by rewrite !lookup_insert_ne.
Qed.

Lemma assignEntries_merge m delta :
  assignEntries m (map_to_list delta) = merge overwrite delta m.
Proof.
  apply map_eq; intros n.
  rewrite assignEntries_lookup by apply NoDup_fst_map_to_list.
  rewrite list_to_map_to_list, lookup_merge.
  by destruct (delta !! n), (m !! n).
Qed.

Lemma merge_overwrite_lookup delta m n :
  merge overwrite delta m !! n = overwrite (delta !! n) (m !! n).
Proof. rewrite lookup_merge. by destruct (delta !! n), (m !! n). Qed.



(** The reducer only assigns [currentPingMap]. *)
Lemma updateCurrentPing_frame state d :
  updateCurrentPing state d =
    set_currentPingMap (currentPingMap (updateCurrentPing state d)) state.
Proof.
  unfold updateCurrentPing. destruct (currentPingMap state) as [cpm|]; [|done].
  by destruct (cpm !! _).
Qed.

Lemma updateCurrentPing_mergePing state d :
  currentPingMap (updateCurrentPing state d) =
    Some (mergePing (currentPingMap state)
            (GamePlayerPingMapUpdateMessage.player_id d)
            (GamePlayerPingMapUpdateMessage.ping_map d)).
Proof.
  unfold updateCurrentPing, mergePing.
  destruct (currentPingMap state) as [cpm|]; simpl.
  - destruct (cpm !! _) as [m|]; simpl; [|done].
    by rewrite assignEntries_merge.
  - rewrite lookup_empty. by rewrite insert_empty.
Qed.



End GamePing.

Section GamePingOrder.
Import Game.

Implicit Types (state : GameState) (d : GamePlayerPingMapUpdateMessage.t).
Implicit Types (deltas : list GamePlayerPingMapUpdateMessage.t).
Implicit Types (k n : string).

Lemma mapOf_step state d k :
  mapOf (updateCurrentPing state d) k =
    if decide (k = keyOf d)
    then Some (merge overwrite (deltaOf d) (default ∅ (mapOf state k)))
    else mapOf state k.
Proof.
  unfold mapOf. rewrite updateCurrentPing_mergePing. simpl. unfold mergePing.
  destruct (currentPingMap state) as [cpm|]; simpl.
  - case_decide as Hk.
    + subst k. destruct (cpm !! keyOf d) as [m|]; rewrite lookup_insert_eq; [done|].
      simpl. f_equal. apply map_eq; intros n.
      rewrite merge_overwrite_lookup, lookup_empty. by destruct (deltaOf d !! n).
    + destruct (cpm !! keyOf d); by rewrite lookup_insert_ne.
  - rewrite lookup_empty. case_decide as Hk.
    + subst k. rewrite lookup_insert_eq. f_equal. apply map_eq; intros n.
      rewrite merge_overwrite_lookup, lookup_empty. by destruct (deltaOf d !! n).
    + rewrite lookup_insert_ne by done. by rewrite lookup_empty.
Qed.

Lemma applyPings_snoc state deltas d :
  applyPings state (deltas ++ [d]) = updateCurrentPing (applyPings state deltas) d.
Proof. unfold applyPings. by rewrite foldl_app. Qed.

Lemma applyPings_frame state deltas :
  applyPings state deltas =
    set_currentPingMap (currentPingMap (applyPings state deltas)) state.
Proof.
  induction deltas as [|d deltas IH] using rev_ind.
  - by destruct state.
  - rewrite applyPings_snoc, updateCurrentPing_frame, IH. done.
Qed.

Lemma applyPings_installed state deltas :
  deltas ≠ [] → is_Some (currentPingMap (applyPings state deltas)).
Proof.
  destruct deltas as [|d deltas _] using rev_ind; [done|]. intros _.
  rewrite applyPings_snoc, updateCurrentPing_mergePing. by eexists.
Qed.

(** A player key has a map after the replay iff it had one before or one
    of the deltas is for that player. *)
Lemma mapOf_applyPings_is_Some state deltas k :
  is_Some (mapOf (applyPings state deltas) k) ↔
  is_Some (mapOf state k) ∨ ∃ d, d ∈ deltas ∧ keyOf d = k.
Proof.
  induction deltas as [|d deltas IH] using rev_ind.
  - split; [by left|]. intros [H|(d & Hd & _)]; [done|]. by apply elem_of_nil in Hd.
  - rewrite applyPings_snoc, mapOf_step. case_decide as Hk.
    + split; [|by eexists]. intros _. right. exists d. split; [|done].
      apply elem_of_app. right. by apply list_elem_of_singleton.
    + rewrite IH. split.
      * intros [H|(d' & Hd' & Hk')]; [by left|]. right. exists d'.
        split; [|done]. apply elem_of_app. by left.
      * intros [H|(d' & Hd' & Hk')]; [by left|].
        apply elem_of_app in Hd' as [Hd'|Hd']; [right; by exists d'|].
        apply list_elem_of_singleton in Hd'. by subst d'.
Qed.

(** The ping held for a pair after the replay is the one of the last delta
    that writes the pair, and the initial one if no delta writes it. *)
Lemma pingOf_applyPings state deltas k n :
  pingOf (applyPings state deltas) k n =
    match last (filter (λ d, keyOf d = k ∧ is_Some (deltaOf d !! n)) deltas) with
    | Some d => deltaOf d !! n
    | None => pingOf state k n
    end.
Proof.
  induction deltas as [|d deltas IH] using rev_ind; [done|].
  rewrite applyPings_snoc, filter_app. unfold pingOf at 1. rewrite mapOf_step.
  rewrite filter_cons, filter_nil.
  case_decide as Hk; case_decide as Ht.
  - rewrite last_snoc. simpl. rewrite merge_overwrite_lookup.
    destruct Ht as [_ [v ->]]. done.
  - rewrite app_nil_r, <- IH. simpl. rewrite merge_overwrite_lookup.
    destruct (deltaOf d !! n) as [v|] eqn:Hv.
    + destruct Ht. split; [done|by eexists].
    + simpl. unfold pingOf. destruct (mapOf (applyPings state deltas) k); [done|].
      simpl. by rewrite lookup_empty.
  - by destruct Ht as [Ht _].
  - rewrite app_nil_r, <- IH. done.
Qed.

Lemma filter_touches_key deltas (p : Z) n :
  filter (λ d, keyOf d = propertyKey p ∧ is_Some (deltaOf d !! n)) deltas =
  filter (touches p n) deltas.
Proof.
  apply list_filter_iff. intros d. unfold touches, propertyKey. split.
  - intros [Hk Hn]. split; [|done]. by apply (inj pretty).
  - intros [-> Hn]. done.
Qed.

Lemma filter_no_delta_for_key deltas k n :
  (∀ d, d ∈ deltas → keyOf d ≠ k) →
  filter (λ d, keyOf d = k ∧ is_Some (deltaOf d !! n)) deltas = [].
Proof.
  intros Hno. induction deltas as [|d deltas IH]; [done|].
  rewrite filter_cons. case_decide as Ht.
  - destruct (Hno d); [by left|]. by destruct Ht.
  - apply IH. intros d' Hd'. apply Hno. by right.
Qed.

(** Reordering a replay: equal results when every pair sees its deltas in
    the same order. *)
Lemma applyPings_reorder state deltas1 deltas2 :
  deltas1 ≡ₚ deltas2 →
  (∀ (p : Z) n, filter (touches p n) deltas1 = filter (touches p n) deltas2) →
  applyPings state deltas1 = applyPings state deltas2.
Proof.
  intros Hperm Horder.
  assert (Hping : ∀ k n, pingOf (applyPings state deltas1) k n =
                         pingOf (applyPings state deltas2) k n).
  { intros k n. rewrite !pingOf_applyPings.
    destruct (decide (Exists (λ d, keyOf d = k) deltas1)) as [Hex|Hno].
    - apply Exists_exists in Hex as (d & _ & <-).
      by rewrite !filter_touches_key, Horder.
    - assert (Hno1 : ∀ d, d ∈ deltas1 → keyOf d ≠ k).
      { intros d Hd Hk. apply Hno, Exists_exists. by exists d. }
      assert (Hno2 : ∀ d, d ∈ deltas2 → keyOf d ≠ k).
      { intros d Hd. apply Hno1. by rewrite Hperm. }
      by rewrite !filter_no_delta_for_key. }
  assert (Hmap : ∀ k, mapOf (applyPings state deltas1) k =
                      mapOf (applyPings state deltas2) k).
  { intros k.
    pose proof (mapOf_applyPings_is_Some state deltas1 k) as H1.
    pose proof (mapOf_applyPings_is_Some state deltas2 k) as H2.
    assert (Hsame : is_Some (mapOf (applyPings state deltas1) k) ↔
                    is_Some (mapOf (applyPings state deltas2) k)).
    { rewrite H1, H2. apply or_iff_compat_l.
      split; intros (d & Hd & Hk); exists d; (split; [|done]).
      - by rewrite <- Hperm.
      - by rewrite Hperm. }
    pose proof (λ n, Hping k n) as Hn. unfold pingOf in Hn.
    destruct (mapOf (applyPings state deltas1) k) as [m1|] eqn:E1,
             (mapOf (applyPings state deltas2) k) as [m2|] eqn:E2.
    - f_equal. apply map_eq. intros n. apply (Hn n).
    - destruct Hsame as [Hs _]. by destruct Hs as [? [=]].
    - destruct Hsame as [_ Hs]. by destruct Hs as [? [=]].
    - done. }
  rewrite (applyPings_frame state deltas1), (applyPings_frame state deltas2).
  f_equal.
  destruct deltas1 as [|d1 deltas1].
  - apply Permutation_nil_l in Hperm. by subst deltas2.
  - destruct (applyPings_installed state (d1 :: deltas1)) as [M1 HM1]; [done|].
    destruct (applyPings_installed state deltas2) as [M2 HM2].
    { intros ->. by apply Permutation_nil_r in Hperm. }
    rewrite HM1, HM2. f_equal. apply map_eq. intros k.
    specialize (Hmap k). unfold mapOf in Hmap. by rewrite HM1, HM2 in Hmap.
Qed.

(** C3. Two orderings of the same deltas (a permutation) in which, for
    every pair [(player_id, node_id)], the deltas that affect the pair come
    in the same relative order, take a state to the same state, so to the
    same [currentPingMap]. *)
Theorem updateCurrentPing_order_independent state deltas1 deltas2 :
  deltas1 ≡ₚ deltas2 →
  (∀ (player_id : Z) (node_id : string),
     filter (touches player_id node_id) deltas1 =
     filter (touches player_id node_id) deltas2) →
  applyPings state deltas1 = applyPings state deltas2 ∧
  currentPingMap (applyPings state deltas1) =
    currentPingMap (applyPings state deltas2).
Proof.
  intros Hperm Horder.
  by rewrite (applyPings_reorder state deltas1 deltas2 Hperm Horder).
Qed.

(** The particular case of C3: two deltas that affect disjoint sets of
    pairs commute. *)
Corollary updateCurrentPing_disjoint_commute state d1 d2 :
  disjointDeltas d1 d2 →
  updateCurrentPing (updateCurrentPing state d1) d2 =
  updateCurrentPing (updateCurrentPing state d2) d1.
Proof.
  intros Hdisj.
  apply (applyPings_reorder state [d1; d2] [d2; d1]); [apply perm_swap|].
  intros p n. rewrite !filter_cons, !filter_nil.
  repeat case_decide; try done. by destruct (Hdisj p n).
Qed.

End GamePingOrder.

Section GamePingOrderExamples.
Import Game.

Lemma updateCurrentPing_order_independent_witness :
  [deltaOf7; deltaOf8] ≡ₚ [deltaOf8; deltaOf7] ∧
  (∀ (player_id : Z) (node_id : string),
     filter (touches player_id node_id) [deltaOf7; deltaOf8] =
     filter (touches player_id node_id) [deltaOf8; deltaOf7]) ∧
  applyPings initialState [deltaOf7; deltaOf8] =
    applyPings initialState [deltaOf8; deltaOf7].
Proof.
  assert (Hperm : [deltaOf7; deltaOf8] ≡ₚ [deltaOf8; deltaOf7]) by apply perm_swap.
  assert (Horder : ∀ (player_id : Z) (node_id : string),
             filter (touches player_id node_id) [deltaOf7; deltaOf8] =
             filter (touches player_id node_id) [deltaOf8; deltaOf7]).
  { intros p n. rewrite !filter_cons, !filter_nil.
    destruct (decide (touches p n deltaOf7)) as [[H7 _]|];
      destruct (decide (touches p n deltaOf8)) as [[H8 _]|]; try reflexivity.
    simpl in H7, H8. lia. }
  split; [exact Hperm|]. split; [exact Horder|].
  exact (proj1 (updateCurrentPing_order_independent initialState _ _ Hperm Horder)).
Defined.

(** Scenario 7 of the spec, run on the reducer. *)
Example updateCurrentPing_scenario :
  currentPingMap
    (applyPings initialState
       [GamePlayerPingMapUpdateMessage.mk 7 {[ "9" := 42 ]};
        GamePlayerPingMapUpdateMessage.mk 7 {[ "9" := 50; "10" := 12 ]}])
  = Some {[ "7" := {[ "9" := 50; "10" := 12 ]} ]}.
Proof. vm_compute. reflexivity. Qed.

(** Last write wins: two deltas that write the same pair do not commute. *)
Example updateCurrentPing_same_pair_not_commutative :
  applyPings initialState
    [GamePlayerPingMapUpdateMessage.mk 7 {[ "9" := 42 ]};
     GamePlayerPingMapUpdateMessage.mk 7 {[ "9" := 50 ]}]
  ≠ applyPings initialState
      [GamePlayerPingMapUpdateMessage.mk 7 {[ "9" := 50 ]};
       GamePlayerPingMapUpdateMessage.mk 7 {[ "9" := 42 ]}].
Proof.
  intros Heq. apply (f_equal (λ s, pingOf s "7" "9")) in Heq.
  vm_compute in Heq. discriminate Heq.
Qed.

End GamePingOrderExamples.

(** ** The [ws] slice *)

Section WsInvariant.
Import Ws.

Lemma initialState_errorImpliesDisconnected :
  errorImpliesDisconnected initialState.
Proof. intros Herr. by destruct Herr. Qed.

(** [updateError] establishes the coupling from any state: a non-null
    error forces [Disconnected], [null] leaves the status alone. *)
Lemma updateError_status (state : WsState) (payload : option SerializedError.t) :
  errorImpliesDisconnected (updateError state payload) ∧
  (payload ≠ None → status (updateError state payload) = Disconnected) ∧
  (payload = None → status (updateError state payload) = status state).
Proof.
  split; [|split].
  - intros Herr. simpl in *. by destruct payload.
  - intros Hp. simpl. by destruct payload.
  - by intros ->.
Qed.

Lemma reducer_keeps_coupling (state : WsState) (a : Action) :
  keepsDisconnected a = true →
  errorImpliesDisconnected state →
  errorImpliesDisconnected (reducer state a).
Proof.
  intros Hkeep Hinv.
  destruct a as [st|e| | | | | | | | |]; simpl; try exact Hinv.
  - by destruct st.
  - apply updateError_status.
  - by intros _.
Qed.

(** C4, as the code has it.  The coupling between [error] and [status] is
    one-way: it holds initially, [updateError] establishes it, and every
    operation of the slice keeps it except [updateStatus] with a status
    other than [Disconnected].  So in every state reached from a state in
    which it holds by operations other than such an [updateStatus], a
    non-null [error] implies [status = Disconnected]. *)
Theorem error_implies_disconnected_unless_updateStatus (state : WsState)
    (ops : list Action) :
  errorImpliesDisconnected state →
  forallb keepsDisconnected ops = true →
  error (run state ops) ≠ None → status (run state ops) = Disconnected.
Proof.
  revert state. induction ops as [|a ops IH]; intros state Hinv Hkeep.
  - exact Hinv.
  - simpl in Hkeep. apply andb_true_iff in Hkeep as [Ha Hops].
    apply (IH (reducer state a)); [|exact Hops].
    by apply reducer_keeps_coupling.
Qed.

Lemma error_implies_disconnected_unless_updateStatus_witness :
  let ops := [UpdateError (Some timeout); UpdateClientInfo None;
              SetDisconnectError (Some timeout)] in
  errorImpliesDisconnected connected ∧
  forallb keepsDisconnected ops = true ∧
  error (run connected ops) ≠ None ∧
  status (run connected ops) = Disconnected.
Proof.
  intros ops.
  assert (Hinv : errorImpliesDisconnected connected).
  { intros Herr. by destruct Herr. }
  split; [exact Hinv|].
  split; [reflexivity|].
  split; [discriminate|].
  apply (error_implies_disconnected_unless_updateStatus connected ops Hinv eq_refl).
  discriminate.
Defined.

(** C4 as stated fails: after [updateError] with an error, [updateStatus]
    overwrites the status and the error stays. *)
Lemma error_does_not_force_disconnected :
  ¬ (∀ ops : list Action,
       error (run initialState ops) ≠ None →
       status (run initialState ops) = Disconnected).
Proof.
  intros Hclaim.
  specialize (Hclaim [UpdateError (Some timeout); UpdateStatus Connected]).
  simpl in Hclaim. discriminate Hclaim. discriminate.
Qed.

End WsInvariant.

(** ** [dispatchMessage] *)

Section DispatchDisconnect.
Import Dispatch.




End DispatchDisconnect.

Section DispatchFanout.
Import Dispatch.

(** C8, as the code has it.  For a recognized tag other than
    [PlayerSessionUpdate] and [Disconnect], [dispatchMessage] dispatches
    exactly one action, so it touches exactly one collaborator (the
    connection state, the lobby/game state, the map cache or, for
    [ListNodes] and [PingUpdate], the node catalog).  [Disconnect]
    dispatches two mutations of the connection state,
    [updatePlayerSessionError] then [setDisconnectError].
    [PlayerSessionUpdate] dispatches [checkCurrentGameId] of "./game" and
    then [updatePlayerSessionPartial] of the connection state: two
    collaborators.  A tag without [case] dispatches nothing. *)
Theorem dispatchMessage_fanout (pathname : string) (msg : WsMessage) :
  let actions := dispatched (dispatchMessage pathname msg) in
  (recognized (type msg) = true →
   type msg ≠ PlayerSessionUpdate →
   type msg ≠ Disconnect →
   ∃ a, actions = [a] ∧ touched pathname msg = [collaborator a]) ∧
  (type msg = Disconnect →
   ∃ error,
     actions = [WsAction (Ws.UpdatePlayerSessionError error);
                WsAction (Ws.SetDisconnectError error)] ∧
     touched pathname msg = [ConnectionState]) ∧
  (type msg = PlayerSessionUpdate →
   ∃ game_id payload,
     actions = [checkCurrentGameId game_id;
                WsAction (Ws.UpdatePlayerSessionPartial payload)] ∧
     touched pathname msg = [LobbyGameState; ConnectionState]) ∧
  (type msg = ListNodes ∨ type msg = PingUpdate →
   touched pathname msg = [NodeCatalog]) ∧
  (recognized (type msg) = false → actions = []).
Proof.
  intros actions. subst actions.
  split; [|split; [|split; [|split]]].
  - intros Hrec Hpsu Hdis.
    destruct msg; simpl in *; try discriminate Hrec; try done;
      by eexists.
  - intros Htype. destruct msg; try discriminate Htype.
    by eexists.
  - intros Htype. destruct msg; try discriminate Htype.
    by do 2 eexists.
  - intros [Htype|Htype]; destruct msg; by try discriminate Htype.
  - intros Hrec. destruct msg; by try discriminate Hrec.
Qed.

(** C8 as stated fails: some recognized tag makes [dispatchMessage]
    dispatch more than one action ([Disconnect]), and some makes it touch
    more than one collaborator ([PlayerSessionUpdate]). *)
Lemma dispatchMessage_not_single_mutation :
  ¬ (∀ (pathname : string) (msg : WsMessage),
       recognized (type msg) = true →
       ∃ a, dispatched (dispatchMessage pathname msg) = [a] ∧
            touched pathname msg = [collaborator a] ∧
            (collaborator a = ConnectionState ∨
             collaborator a = LobbyGameState ∨
             collaborator a = MapCache)).
Proof.
  intros Hclaim.
  destruct (Hclaim "/lobby" (MDisconnect kicked) eq_refl) as (a & Hone & _).
  discriminate Hone.
Qed.

Example PlayerSessionUpdate_touches_two :
  touched "/lobby" (MPlayerSessionUpdate {[ "game_id" := JNum 1 ]})
  = [LobbyGameState; ConnectionState].
Proof. reflexivity. Qed.

End DispatchFanout.

Section DispatchFanoutExamples.
Import Dispatch.

Lemma dispatchMessage_fanout_witness :
  let msg := MGamePlayerLeave (Game.GamePlayerLeaveMessage.mk 1 7) in
  recognized (type msg) = true ∧
  type msg ≠ PlayerSessionUpdate ∧
  type msg ≠ Disconnect ∧
  ∃ a, dispatched (dispatchMessage "/lobby" msg) = [a] ∧
       touched "/lobby" msg = [collaborator a].
Proof.
  intros msg.
  assert (Hrec : recognized (type msg) = true) by reflexivity.
  assert (Hpsu : type msg ≠ PlayerSessionUpdate) by discriminate.
  assert (Hdis : type msg ≠ Disconnect) by discriminate.
  split; [exact Hrec|]. split; [exact Hpsu|]. split; [exact Hdis|].
  exact (proj1 (dispatchMessage_fanout "/lobby" msg) Hrec Hpsu Hdis).
Defined.

End DispatchFanoutExamples.

(** ** The codec of [proto.node.Node] *)

Section Varint.
Import NodePb.

Lemma bind_Ok {A B : Type} (a : A) (k : A → result B) : (Ok a ≫= k) = k a.
Proof. reflexivity. Qed.

Lemma land_127 (v : Z) : Z.land v 127 = v mod 128.
Proof. change 127 with (Z.ones 7). by rewrite Z.land_ones. Qed.

Lemma land_low_shiftl (x acc : Z) : 0 <= x < 128 → Z.land x (Z.shiftl acc 7) = 0.
Proof.
  intros Hx.
  rewrite <- (Z.mod_small x 128) by lia.
  rewrite <- land_127, <- Z.land_assoc.
  rewrite (Z.land_comm 127). change 127 with (Z.ones 7).
  rewrite Z.land_ones by lia. rewrite Z.shiftl_mul_pow2 by lia.
  rewrite Z.mod_mul by lia. apply Z.land_0_r.
Qed.

Lemma lor_low_shiftl (x acc : Z) :
  0 <= x < 128 → Z.lor x (Z.shiftl acc 7) = x + 128 * acc.
Proof.
  intros Hx. pose proof (Z.add_lor_land x (Z.shiftl acc 7)) as H.
  rewrite land_low_shiftl in H by done.
  rewrite Z.shiftl_mul_pow2 in H by lia. rewrite Z.shiftl_mul_pow2 by lia.
  change (2 ^ 7) with 128 in *. lia.
Qed.

Lemma mod_128_bound (v : Z) : 0 <= v mod 128 < 128.
Proof. apply Z.mod_pos_bound. lia. Qed.

(** The byte [(value & 0x7f) | 0x80] of a continued varint. *)
Lemma continued_byte (v : Z) : Z.lor (Z.land v 127) 128 = v mod 128 + 128.
Proof.
  rewrite land_127. change 128 with (Z.shiftl 1 7) at 2.
  rewrite lor_low_shiftl by apply mod_128_bound. lia.
Qed.

Lemma continued_byte_group (x : Z) : 0 <= x < 128 → Z.land (x + 128) 127 = x.
Proof. intros Hx. rewrite land_127. Z.div_mod_to_equations. lia. Qed.

Lemma continued_byte_flag (x : Z) : 0 <= x < 128 → Z.land (x + 128) 128 ≠ 0.
Proof.
  intros Hx. replace (x + 128) with (Z.lor x (Z.shiftl 1 7)).
  - rewrite Z.land_lor_distr_l. change (Z.shiftl 1 7) with 128.
    change 128 with (Z.shiftl 1 7) at 1. rewrite land_low_shiftl by done.
    by vm_compute.
  - rewrite lor_low_shiftl by done. lia.
Qed.

Lemma last_byte_flag (x : Z) : 0 <= x < 128 → Z.land x 128 = 0.
Proof. intros Hx. change 128 with (Z.shiftl 1 7). by apply land_low_shiftl. Qed.

Lemma varintValue_cons_continued (v : Z) (group : list Z) :
  varintValue (Z.lor (Z.land v 127) 128 :: group) = v mod 128 + 128 * varintValue group.
Proof.
  simpl. rewrite continued_byte, continued_byte_group by apply mod_128_bound.
  apply lor_low_shiftl, mod_128_bound.
Qed.

Lemma varintValue_last (v : Z) : 0 <= v < 128 → varintValue [v] = v.
Proof.
  intros Hv. simpl. rewrite land_127, Z.mod_small by lia.
  rewrite lor_low_shiftl by lia. lia.
Qed.

Lemma pow2_7_succ (r : nat) :
  2 ^ (7 * Z.of_nat (S r)) = 128 * 2 ^ (7 * Z.of_nat r).
Proof.
  replace (7 * Z.of_nat (S r)) with (7 + 7 * Z.of_nat r) by lia.
  by rewrite Z.pow_add_r by lia.
Qed.

(** What the loop of [writeUnsignedVarint32] emits is a varint of the
    value: it holds the value, is as long as the rounds allow, and is read
    and skipped as one varint. *)
Lemma writeUnsignedVarint_spec (rounds : nat) :
  ∀ v, 0 <= v < 2 ^ (7 * Z.of_nat (S rounds)) →
    varintValue (writeUnsignedVarint rounds v) = v ∧
    (length (writeUnsignedVarint rounds v) ≤ S rounds)%nat ∧
    (∀ limit rest, (S rounds ≤ limit)%nat →
       readVarintBytes limit (writeUnsignedVarint rounds v ++ rest)
       = Ok (writeUnsignedVarint rounds v, rest)) ∧
    (∀ rest, skipVarint (writeUnsignedVarint rounds v ++ rest) = Ok rest).
Proof.
  induction rounds as [|rounds IH]; intros v Hv.
  - change (2 ^ (7 * Z.of_nat 1)) with 128 in Hv. simpl.
    split; [by apply varintValue_last|]. split; [done|]. split.
    + intros [|limit] rest Hl; [lia|]. simpl. by rewrite decide_True by lia.
    + intros rest. by rewrite decide_False by (rewrite last_byte_flag; lia).
  - simpl. case_decide as Hbig.
    + rewrite pow2_7_succ in Hv.
      assert (Hq : 0 <= Z.shiftr v 7 < 2 ^ (7 * Z.of_nat (S rounds))).
      { rewrite Z.shiftr_div_pow2 by lia. change (2 ^ 7) with 128.
        set (P := 2 ^ (7 * Z.of_nat (S rounds))) in *.
        Z.div_mod_to_equations. nia. }
      destruct (IH _ Hq) as (Hval & Hlen & Hread & Hskip).
      split; [|split; [|split]].
      * rewrite varintValue_cons_continued, Hval.
        rewrite Z.shiftr_div_pow2 by lia. change (2 ^ 7) with 128.
        Z.div_mod_to_equations. lia.
      * simpl. lia.
      * intros [|limit] rest Hl; [lia|]. simpl.
        pose proof (mod_128_bound v).
        rewrite decide_False by (rewrite continued_byte; lia).
        rewrite Hread by lia. done.
      * intros rest. simpl.
        rewrite decide_True
          by (rewrite continued_byte; apply continued_byte_flag, mod_128_bound).
        apply Hskip.
    + assert (Hsmall : 0 <= v < 128) by lia.
      split; [by apply varintValue_last|]. split; [simpl; lia|]. split.
      * intros [|limit] rest Hl; [lia|]. simpl. by rewrite decide_True by lia.
      * intros rest. simpl. by rewrite decide_False by (rewrite last_byte_flag; lia).
Qed.

(** The nine sign-extended groups of a negative value. *)
Lemma writeSignExtended_spec (rounds : nat) :
  ∀ v tail,
    varintValue (writeSignExtended rounds v ++ tail)
      = v mod 2 ^ (7 * Z.of_nat rounds) + 2 ^ (7 * Z.of_nat rounds) * varintValue tail ∧
    length (writeSignExtended rounds v) = rounds ∧
    (∀ limit,
       readVarintBytes (rounds + limit) (writeSignExtended rounds v ++ tail)
       = '(group, rest) ← readVarintBytes limit tail;
         Ok (writeSignExtended rounds v ++ group, rest)) ∧
    skipVarint (writeSignExtended rounds v ++ tail) = skipVarint tail.
Proof.
  induction rounds as [|rounds IH]; intros v tail.
  - simpl. split; [|split; [done|split; [|done]]].
    + rewrite Z.mod_1_r. lia.
    + intros limit. by destruct (readVarintBytes limit tail) as [[??]|].
  - destruct (IH (Z.shiftr v 7) tail) as (Hval & Hlen & Hread & Hskip).
    pose proof (mod_128_bound v) as Hb.
    split; [|split; [|split]].
    + change (writeSignExtended (S rounds) v ++ tail)
        with (Z.lor (Z.land v 127) 128 :: (writeSignExtended rounds (Z.shiftr v 7) ++ tail)).
      rewrite varintValue_cons_continued, Hval, pow2_7_succ.
      rewrite Z.shiftr_div_pow2 by lia. change (2 ^ 7) with 128.
      assert (0 < 2 ^ (7 * Z.of_nat rounds)) by (apply Z.pow_pos_nonneg; lia).
      rewrite (Z.rem_mul_r v 128 (2 ^ (7 * Z.of_nat rounds))) by lia. ring.
    + simpl. by rewrite Hlen.
    + intros limit. simpl.
      rewrite decide_False by (rewrite continued_byte; lia).
      rewrite Hread. by destruct (readVarintBytes limit tail) as [[??]|].
    + simpl.
      rewrite decide_True
        by (rewrite continued_byte; apply continued_byte_flag, mod_128_bound).
      apply Hskip.
Qed.

(** [readUnsignedVarint32] reads back what [writeUnsignedVarint32] wrote. *)
Lemma readUnsignedVarint32_write (v : Z) (rest : list Z) :
  0 <= v < 2 ^ 32 →
  readUnsignedVarint32 (writeUnsignedVarint32 v ++ rest) = Ok (v, rest).
Proof.
  intros Hv. unfold readUnsignedVarint32, writeUnsignedVarint32.
  destruct (writeUnsignedVarint_spec 4 v) as (Hval & Hlen & Hread & _).
  { change (2 ^ (7 * Z.of_nat 5)) with (2 ^ 35). lia. }
  rewrite Hread by lia. rewrite bind_Ok. rewrite decide_True by lia.
  rewrite Hval. unfold toUint32. by rewrite Z.mod_small.
Qed.

Lemma skipVarint_writeUnsigned (v : Z) (rest : list Z) :
  0 <= v < 2 ^ 32 →
  skipVarint (writeUnsignedVarint32 v ++ rest) = Ok rest.
Proof.
  intros Hv. unfold writeUnsignedVarint32.
  destruct (writeUnsignedVarint_spec 4 v) as (_ & _ & _ & Hskip); [|done].
  change (2 ^ (7 * Z.of_nat 5)) with (2 ^ 35). lia.
Qed.

(** [readSignedVarint32] reads back what [writeSignedVarint32] wrote. *)
Lemma readSignedVarint32_write (v : Z) (rest : list Z) :
  - 2 ^ 31 <= v < 2 ^ 31 →
  readSignedVarint32 (writeSignedVarint32 v ++ rest) = Ok (v, rest).
Proof.
  intros Hv. unfold readSignedVarint32, writeSignedVarint32.
  case_decide as Hsign.
  - rewrite readUnsignedVarint32_write by lia. rewrite bind_Ok.
    unfold toInt32. do 2 f_equal. Z.div_mod_to_equations. lia.
  - unfold readUnsignedVarint32. rewrite <- app_assoc.
    destruct (writeSignExtended_spec 9 v ([1] ++ rest)) as (_ & Hlen & Hread & _).
    destruct (writeSignExtended_spec 9 v [1]) as (Hval & _ & _ & _).
    change 10%nat with (9 + 1)%nat. rewrite (Hread 1%nat).
    change (readVarintBytes 1 ([1] ++ rest)) with (Ok ([1], rest) : result _).
    rewrite !bind_Ok.
    rewrite decide_False by (rewrite length_app, Hlen; simpl; lia).
    rewrite Hval. rewrite varintValue_last by lia.
    change (7 * Z.of_nat 9) with 63.
    unfold toInt32. do 2 f_equal. Z.div_mod_to_equations. lia.
Qed.

Lemma skipVarint_writeSigned (v : Z) (rest : list Z) :
  - 2 ^ 31 <= v < 2 ^ 31 →
  skipVarint (writeSignedVarint32 v ++ rest) = Ok rest.
Proof.
  intros Hv. unfold writeSignedVarint32. case_decide as Hsign.
  - apply skipVarint_writeUnsigned. lia.
  - rewrite <- app_assoc.
    destruct (writeSignExtended_spec 9 v ([1] ++ rest)) as (_ & _ & _ & ->).
    reflexivity.
Qed.

End Varint.

Section Reader.
Import NodePb.

Lemma writeUnsignedVarint32_length (v : Z) :
  (1 ≤ length (writeUnsignedVarint32 v))%nat.
Proof.
  unfold writeUnsignedVarint32. generalize 4%nat.
  intros [|rounds]; simpl; [lia | case_decide; simpl; lia].
Qed.

Lemma fromUtf8_utf8 (s : string) : fromUtf8 (utf8 s) = s.
Proof.
  unfold fromUtf8, utf8. rewrite <- list_fmap_compose.
  transitivity (String.string_of_list_ascii (id <$> String.list_ascii_of_string s)).
  - f_equal. apply list_fmap_ext. intros i a _. simpl.
    rewrite N2Z.id. apply Ascii.ascii_N_embedding.
  - rewrite list_fmap_id. apply String.string_of_list_ascii_of_string.
Qed.

Lemma utf8_length (s : string) : length (utf8 s) = String.length s.
Proof.
  unfold utf8. rewrite length_fmap.
  induction s as [|a s IH]; simpl; [done | by rewrite IH].
Qed.

Lemma nonEmpty_spec (s : string) : nonEmpty s = true ↔ s ≠ "".
Proof.
  unfold nonEmpty. rewrite bool_decide_eq_true.
  destruct s; simpl; split; intros H; try done; lia.
Qed.

Lemma nonEmpty_false (s : string) : nonEmpty s = false → s = "".
Proof.
  unfold nonEmpty. rewrite bool_decide_eq_false.
  destruct s; simpl; [done | lia].
Qed.

(** [nextField] on a header written by [writeFieldHeader_]. *)
Lemma nextField_header (field wireType : Z) (rest : list Z) (fld wt : Z) :
  0 <= field < 2 ^ 29 →
  0 <= wireType < 8 →
  validWireType wireType = true →
  nextField (mkReader (writeFieldHeader_ field wireType ++ rest) fld wt)
    = Ok (true, mkReader rest field wireType).
Proof.
  intros Hf Hw Hvalid. unfold nextField, writeFieldHeader_. simpl decoder_.
  pose proof (writeUnsignedVarint32_length (field * 8 + wireType)) as Hlen.
  destruct (writeUnsignedVarint32 (field * 8 + wireType) ++ rest)
    as [|b l] eqn:E.
  { apply (f_equal length) in E. rewrite length_app in E. simpl in E. lia. }
  rewrite <- E. rewrite readUnsignedVarint32_write by lia. rewrite bind_Ok.
  assert (Hty : Z.land (field * 8 + wireType) 7 = wireType).
  { change 7 with (Z.ones 3). rewrite Z.land_ones by lia.
    change (2 ^ 3) with 8. Z.div_mod_to_equations. lia. }
  assert (Hnum : Z.shiftr (toUint32 (field * 8 + wireType)) 3 = field).
  { unfold toUint32. rewrite Z.mod_small by lia.
    rewrite Z.shiftr_div_pow2 by lia. change (2 ^ 3) with 8.
    Z.div_mod_to_equations. lia. }
  cbv zeta. rewrite Hty, Hnum, Hvalid. done.
Qed.

Lemma readInt32_record (v : Z) (rest : list Z) (fld : Z) :
  - 2 ^ 31 <= v < 2 ^ 31 →
  readInt32 (mkReader (writeSignedVarint32 v ++ rest) fld VARINT)
    = Ok (v, mkReader rest fld VARINT).
Proof.
  intros Hv. unfold readInt32. simpl nextWireType_. simpl decoder_.
  rewrite decide_True by done.
  by rewrite readSignedVarint32_write.
Qed.

Lemma readString_record (s : string) (rest : list Z) (fld : Z) :
  Z.of_nat (String.length s) < 2 ^ 32 →
  readString
    (mkReader (writeUnsignedVarint32 (Z.of_nat (length (utf8 s))) ++ utf8 s ++ rest)
       fld DELIMITED)
    = Ok (s, mkReader rest fld DELIMITED).
Proof.
  intros Hs. unfold readString. simpl nextWireType_. simpl decoder_.
  rewrite decide_True by done.
  rewrite readUnsignedVarint32_write by (rewrite utf8_length; lia).
  rewrite bind_Ok. unfold decoderReadString.
  rewrite decide_True by (rewrite length_app; lia).
  rewrite Nat2Z.id, take_app_length, drop_app_length, bind_Ok.
  by rewrite fromUtf8_utf8.
Qed.

Lemma skipField_int32 (v : Z) (rest : list Z) (fld : Z) :
  - 2 ^ 31 <= v < 2 ^ 31 →
  skipField (mkReader (writeSignedVarint32 v ++ rest) fld VARINT)
    = Ok (mkReader rest fld VARINT).
Proof.
  intros Hv. unfold skipField. simpl skipField_.
  by rewrite skipVarint_writeSigned.
Qed.

Lemma skipField_string (s : string) (rest : list Z) (fld : Z) :
  Z.of_nat (String.length s) < 2 ^ 32 →
  skipField
    (mkReader (writeUnsignedVarint32 (Z.of_nat (length (utf8 s))) ++ utf8 s ++ rest)
       fld DELIMITED)
    = Ok (mkReader rest fld DELIMITED).
Proof.
  intros Hs. unfold skipField. simpl skipField_.
  rewrite readUnsignedVarint32_write by (rewrite utf8_length; lia).
  rewrite bind_Ok. unfold advance.
  rewrite decide_True by (rewrite length_app; lia).
  by rewrite Nat2Z.id, drop_app_length.
Qed.

End Reader.

Section Codec.
Import NodePb.

Lemma writeFieldHeader_length (field wireType : Z) :
  (1 ≤ length (writeFieldHeader_ field wireType))%nat.
Proof. apply writeUnsignedVarint32_length. Qed.

Lemma decodesTo_nil : decodesTo [] id.
Proof. intros [|fuel] msg fld wt Hfuel; [simpl in Hfuel; lia | reflexivity]. Qed.

Lemma decodesTo_skip (input : list Z) (f : Node → Node) :
  decodesTo input f → decodesTo ([] ++ input) (λ msg, f (id msg)).
Proof. done. Qed.

Lemma decodesTo_id (v : Z) (rest : list Z) (f : Node → Node) :
  - 2 ^ 31 <= v < 2 ^ 31 →
  decodesTo rest f →
  decodesTo (int32Record 1 v ++ rest) (λ msg, f (setId msg v)).
Proof.
  intros Hv Hrest [|fuel] msg fld wt Hfuel; [simpl in Hfuel; lia|].
  unfold int32Record in *. rewrite <- !app_assoc in *.
  pose proof (writeFieldHeader_length 1 VARINT).
  rewrite length_app in Hfuel.
  cbn [deserializeLoop]. rewrite nextField_header by done.
  change (isEndGroup (mkReader _ 1 VARINT)) with false. cbv iota zeta.
  change (getFieldNumber (mkReader _ 1 VARINT)) with 1.
  rewrite decide_True by done.
  rewrite readInt32_record by done. rewrite bind_Ok.
  apply Hrest. rewrite length_app in Hfuel. lia.
Qed.

Ltac decode_string_record Hs Hrest :=
  let fuel := fresh "fuel" in
  let Hfuel := fresh "Hfuel" in
  let Hhdr := fresh "Hhdr" in
  intros [|fuel] ? ? ? Hfuel; [simpl in Hfuel; lia|];
  unfold stringRecord in *; rewrite <- !app_assoc in *;
  match goal with
  | |- context [writeFieldHeader_ ?k DELIMITED] =>
      pose proof (writeFieldHeader_length k DELIMITED) as Hhdr;
      rewrite length_app in Hfuel;
      cbn [deserializeLoop]; rewrite nextField_header by done;
      change (isEndGroup (mkReader _ k DELIMITED)) with false; cbv iota zeta;
      change (getFieldNumber (mkReader _ k DELIMITED)) with k
  end;
  repeat (rewrite decide_False by done);
  rewrite decide_True by done;
  rewrite readString_record by exact Hs; rewrite bind_Ok;
  apply Hrest; rewrite !length_app in Hfuel; lia.

Lemma decodesTo_name (s : string) (rest : list Z) (f : Node → Node) :
  Z.of_nat (String.length s) < 2 ^ 32 →
  decodesTo rest f →
  decodesTo (stringRecord 2 s ++ rest) (λ msg, f (setName msg s)).
Proof. intros Hs Hrest. decode_string_record Hs Hrest. Qed.

Lemma decodesTo_location (s : string) (rest : list Z) (f : Node → Node) :
  Z.of_nat (String.length s) < 2 ^ 32 →
  decodesTo rest f →
  decodesTo (stringRecord 3 s ++ rest) (λ msg, f (setLocation msg s)).
Proof. intros Hs Hrest. decode_string_record Hs Hrest. Qed.

Lemma decodesTo_ipAddr (s : string) (rest : list Z) (f : Node → Node) :
  Z.of_nat (String.length s) < 2 ^ 32 →
  decodesTo rest f →
  decodesTo (stringRecord 4 s ++ rest) (λ msg, f (setIpAddr msg s)).
Proof. intros Hs Hrest. decode_string_record Hs Hrest. Qed.

Lemma decodesTo_countryId (s : string) (rest : list Z) (f : Node → Node) :
  Z.of_nat (String.length s) < 2 ^ 32 →
  decodesTo rest f →
  decodesTo (stringRecord 5 s ++ rest) (λ msg, f (setCountryId msg s)).
Proof. intros Hs Hrest. decode_string_record Hs Hrest. Qed.

Lemma listsFields_nil : listsFields [] [].
Proof. intros [|fuel] fld wt Hfuel; [simpl in Hfuel; lia | reflexivity]. Qed.

Lemma listsFields_int32 (field v : Z) (rest l : list Z) :
  0 <= field < 2 ^ 29 →
  - 2 ^ 31 <= v < 2 ^ 31 →
  listsFields rest l →
  listsFields (int32Record field v ++ rest) (field :: l).
Proof.
  intros Hf Hv Hrest [|fuel] fld wt Hfuel; [simpl in Hfuel; lia|].
  unfold int32Record in *. rewrite <- !app_assoc in *.
  pose proof (writeFieldHeader_length field VARINT).
  rewrite !length_app in Hfuel.
  cbn [fieldNumbersLoop]. rewrite nextField_header by done.
  cbv iota. rewrite skipField_int32 by done. rewrite bind_Ok.
  rewrite Hrest by lia. done.
Qed.

Lemma listsFields_string (field : Z) (s : string) (rest l : list Z) :
  0 <= field < 2 ^ 29 →
  Z.of_nat (String.length s) < 2 ^ 32 →
  listsFields rest l →
  listsFields (stringRecord field s ++ rest) (field :: l).
Proof.
  intros Hf Hs Hrest [|fuel] fld wt Hfuel; [simpl in Hfuel; lia|].
  unfold stringRecord in *. rewrite <- !app_assoc in *.
  pose proof (writeFieldHeader_length field DELIMITED).
  rewrite !length_app in Hfuel.
  cbn [fieldNumbersLoop]. rewrite nextField_header by done.
  cbv iota. rewrite skipField_string by done. rewrite bind_Ok.
  rewrite Hrest by lia. done.
Qed.

(** The bytes of a message: its records, field by field. *)
Lemma serializeBinary_records (msg : Node) :
  - 2 ^ 31 <= getId msg < 2 ^ 31 →
  serializeBinary msg =
    Ok (idRecord msg
        ++ optionalStringRecord 2 (getName msg)
        ++ optionalStringRecord 3 (getLocation msg)
        ++ optionalStringRecord 4 (getIpAddr msg)
        ++ optionalStringRecord 5 (getCountryId msg)).
Proof.
  intros Hid. unfold serializeBinary, serializeBinaryToWriter.
  unfold idRecord, optionalStringRecord, writeInt32, writeString.
  cbv zeta.
  destruct (decide (getId msg ≠ 0)); [rewrite decide_True by done|];
    rewrite bind_Ok;
    destruct (nonEmpty (getName msg)), (nonEmpty (getLocation msg)),
             (nonEmpty (getIpAddr msg)), (nonEmpty (getCountryId msg));
    f_equal; rewrite ?app_nil_r, ?app_nil_l, <- ?app_assoc; reflexivity.
Qed.

End Codec.

Section CodecTheorems.
Import NodePb.

Lemma decodesTo_idRecord (msg0 : Node) (rest : list Z) (f : Node → Node) :
  - 2 ^ 31 <= getId msg0 < 2 ^ 31 →
  decodesTo rest f →
  decodesTo (idRecord msg0 ++ rest)
    (λ msg, f (if decide (getId msg0 ≠ 0) then setId msg (getId msg0) else msg)).
Proof.
  intros Hid Hrest. unfold idRecord. case_decide; [|done].
  by apply decodesTo_id.
Qed.

Lemma decodesTo_optional (field : Z) (set : Node → string → Node) (s : string)
    (rest : list Z) (f : Node → Node) :
  (∀ g, decodesTo rest g →
        decodesTo (stringRecord field s ++ rest) (λ msg, g (set msg s))) →
  decodesTo rest f →
  decodesTo (optionalStringRecord field s ++ rest)
    (λ msg, f (if nonEmpty s then set msg s else msg)).
Proof.
  intros Hrecord Hrest. unfold optionalStringRecord.
  destruct (nonEmpty s); [by apply Hrecord | done].
Qed.

(** What the deserialization loop rebuilds from the records of [msg0]. *)
Lemma decodesTo_records (msg0 : Node) :
  wellTyped msg0 →
  ∃ f : Node → Node,
    decodesTo
      (idRecord msg0
       ++ optionalStringRecord 2 (getName msg0)
       ++ optionalStringRecord 3 (getLocation msg0)
       ++ optionalStringRecord 4 (getIpAddr msg0)
       ++ optionalStringRecord 5 (getCountryId msg0)) f ∧
    ∀ msg,
      f msg =
        let msg := if decide (getId msg0 ≠ 0) then setId msg (getId msg0) else msg in
        let msg := if nonEmpty (getName msg0) then setName msg (getName msg0) else msg in
        let msg := if nonEmpty (getLocation msg0)
                   then setLocation msg (getLocation msg0) else msg in
        let msg := if nonEmpty (getIpAddr msg0)
                   then setIpAddr msg (getIpAddr msg0) else msg in
        if nonEmpty (getCountryId msg0)
        then setCountryId msg (getCountryId msg0) else msg.
Proof.
  intros (Hid & Hname & Hloc & Hip & Hcountry).
  rewrite <- (app_nil_r (optionalStringRecord 5 _)).
  eexists. split.
  - eapply (decodesTo_idRecord msg0 _ _ Hid).
    eapply (decodesTo_optional 2 setName); [intros g; by apply decodesTo_name|].
    eapply (decodesTo_optional 3 setLocation);
      [intros g; by apply decodesTo_location|].
    eapply (decodesTo_optional 4 setIpAddr); [intros g; by apply decodesTo_ipAddr|].
    eapply (decodesTo_optional 5 setCountryId);
      [intros g; by apply decodesTo_countryId|].
    apply decodesTo_nil.
  - intros msg. reflexivity.
Qed.

Lemma listsFields_records (msg : Node) :
  wellTyped msg →
  listsFields
    (idRecord msg
     ++ optionalStringRecord 2 (getName msg)
     ++ optionalStringRecord 3 (getLocation msg)
     ++ optionalStringRecord 4 (getIpAddr msg)
     ++ optionalStringRecord 5 (getCountryId msg))
    (writtenFields msg).
Proof.
  intros (Hid & Hname & Hloc & Hip & Hcountry).
  rewrite <- (app_nil_r (optionalStringRecord 5 _)).
  unfold writtenFields. rewrite <- (app_nil_r (if nonEmpty (getCountryId msg) then _ else _)).
  unfold idRecord, optionalStringRecord.
  destruct (decide (getId msg ≠ 0));
    [apply listsFields_int32; [done|done|] | rewrite !app_nil_l];
    (destruct (nonEmpty (getName msg));
       [apply listsFields_string; [done|done|] | rewrite !app_nil_l]);
    (destruct (nonEmpty (getLocation msg));
       [apply listsFields_string; [done|done|] | rewrite !app_nil_l]);
    (destruct (nonEmpty (getIpAddr msg));
       [apply listsFields_string; [done|done|] | rewrite !app_nil_l]);
    (destruct (nonEmpty (getCountryId msg));
       [apply listsFields_string; [done|done|] | rewrite !app_nil_l]);
    apply listsFields_nil.
Qed.

Lemma writtenFields_elem (msg : Node) (k : Z) :
  k ∈ writtenFields msg ↔
    (k = 1 ∧ getId msg ≠ 0) ∨ (k = 2 ∧ getName msg ≠ "") ∨
    (k = 3 ∧ getLocation msg ≠ "") ∨ (k = 4 ∧ getIpAddr msg ≠ "") ∨
    (k = 5 ∧ getCountryId msg ≠ "").
Proof.
  rewrite <- !nonEmpty_spec. unfold writtenFields. rewrite !elem_of_app.
  destruct (decide (getId msg ≠ 0)), (nonEmpty (getName msg)),
    (nonEmpty (getLocation msg)), (nonEmpty (getIpAddr msg)),
    (nonEmpty (getCountryId msg));
    rewrite ?list_elem_of_singleton, ?elem_of_nil;
    intuition (try discriminate; try lia; try congruence).
Qed.

(** C9. For a message within its schema, the fields a reader finds on the
    wire produced by [serializeBinary] are those whose value differs from
    the proto3 default: field 1 ([id]) is there iff the id is not 0, and
    fields 2 to 5 ([name], [location], [ip_addr], [country_id]) iff the
    string is not empty.  Nothing else is on the wire, and no field is
    there twice. *)
Theorem serializeBinary_omits_defaults (msg : Node) :
  wellTyped msg →
  ∃ (output written : list Z),
    serializeBinary msg = Ok output ∧
    fieldNumbers output = Ok written ∧
    (1 ∈ written ↔ getId msg ≠ 0) ∧
    (2 ∈ written ↔ getName msg ≠ "") ∧
    (3 ∈ written ↔ getLocation msg ≠ "") ∧
    (4 ∈ written ↔ getIpAddr msg ≠ "") ∧
    (5 ∈ written ↔ getCountryId msg ≠ "") ∧
    (∀ k, k ∈ written → 1 <= k <= 5) ∧
    NoDup written.
Proof.
  intros Hwt. eexists _, (writtenFields msg).
  split; [apply serializeBinary_records, Hwt|].
  split; [apply (listsFields_records msg Hwt); lia|].
  do 5 (split; [rewrite writtenFields_elem;
                 intuition (try discriminate; try lia)|]).
  split.
  - intros k. rewrite writtenFields_elem. intuition lia.
  - unfold writtenFields.
    destruct (decide (getId msg ≠ 0)), (nonEmpty (getName msg)),
      (nonEmpty (getLocation msg)), (nonEmpty (getIpAddr msg)),
      (nonEmpty (getCountryId msg)); simpl;
      repeat (apply NoDup_cons; split;
              [rewrite ?not_elem_of_cons; repeat split;
               (discriminate || apply not_elem_of_nil)|]);
      apply NoDup_nil_2.
Qed.

(** C10. For a message within its schema, [serializeBinary] returns bytes
    from which [deserializeBinary] rebuilds a message with the same five
    field values; a field at its default (0 or the empty string) is not on
    the wire and reads as its default again. *)
Theorem deserialize_serialize_roundtrip (msg : Node) :
  wellTyped msg →
  ∃ (output : list Z) (msg' : Node),
    serializeBinary msg = Ok output ∧
    deserializeBinary output = Ok msg' ∧
    getId msg' = getId msg ∧
    getName msg' = getName msg ∧
    getLocation msg' = getLocation msg ∧
    getIpAddr msg' = getIpAddr msg ∧
    getCountryId msg' = getCountryId msg.
Proof.
  intros Hwt. destruct (decodesTo_records msg Hwt) as (f & Hdecodes & Hf).
  eexists _, (f new).
  split; [apply serializeBinary_records, Hwt|].
  split; [apply Hdecodes; simpl; lia|].
  rewrite Hf. cbv zeta.
  destruct (decide (getId msg ≠ 0)) as [Hid|Hid];
    destruct (nonEmpty (getName msg)) eqn:Hname;
    destruct (nonEmpty (getLocation msg)) eqn:Hloc;
    destruct (nonEmpty (getIpAddr msg)) eqn:Hip;
    destruct (nonEmpty (getCountryId msg)) eqn:Hcountry;
    try apply nonEmpty_spec in Hname; try apply nonEmpty_false in Hname;
    try apply nonEmpty_spec in Hloc; try apply nonEmpty_false in Hloc;
    try apply nonEmpty_spec in Hip; try apply nonEmpty_false in Hip;
    try apply nonEmpty_spec in Hcountry; try apply nonEmpty_false in Hcountry;
    unfold getId, getName, getLocation, getIpAddr, getCountryId in *; simpl;
    unfold setProto3IntField, setProto3StringField;
    rewrite ?decide_True by done;
    repeat split; simpl; try done; try lia.
Qed.

End CodecTheorems.

Section CodecExamples.
Import NodePb.

Lemma serializeBinary_omits_defaults_witness :
  wellTyped sampleNode ∧
  ∃ (output written : list Z),
    serializeBinary sampleNode = Ok output ∧
    fieldNumbers output = Ok written ∧
    (1 ∈ written ↔ getId sampleNode ≠ 0) ∧
    (2 ∈ written ↔ getName sampleNode ≠ "") ∧
    (3 ∈ written ↔ getLocation sampleNode ≠ "") ∧
    (4 ∈ written ↔ getIpAddr sampleNode ≠ "") ∧
    (5 ∈ written ↔ getCountryId sampleNode ≠ "") ∧
    (∀ k, k ∈ written → 1 <= k <= 5) ∧
    NoDup written.
Proof.
  assert (Hwt : wellTyped sampleNode) by (repeat split; by vm_compute).
  split; [exact Hwt|].
  exact (serializeBinary_omits_defaults sampleNode Hwt).
Defined.

Lemma deserialize_serialize_roundtrip_witness :
  wellTyped sampleNode ∧
  ∃ (output : list Z) (msg' : Node),
    serializeBinary sampleNode = Ok output ∧
    deserializeBinary output = Ok msg' ∧
    getId msg' = getId sampleNode ∧
    getName msg' = getName sampleNode ∧
    getLocation msg' = getLocation sampleNode ∧
    getIpAddr msg' = getIpAddr sampleNode ∧
    getCountryId msg' = getCountryId sampleNode.
Proof.
  assert (Hwt : wellTyped sampleNode) by (repeat split; by vm_compute).
  split; [exact Hwt|].
  exact (deserialize_serialize_roundtrip sampleNode Hwt).
Defined.

(** The sample on the wire: id -5 as the ten bytes of its 64-bit two's
    complement, [name] and [ip_addr] length-prefixed, [location] and the
    empty [country_id] omitted. *)
Example sampleNode_wire :
  serializeBinary sampleNode =
    Ok [8; 251; 255; 255; 255; 255; 255; 255; 255; 255; 1;
        18; 7; 101; 117; 45; 119; 101; 115; 116;
        34; 8; 49; 48; 46; 48; 46; 48; 46; 49] ∧
  (output ← serializeBinary sampleNode; fieldNumbers output) = Ok [1; 2; 4] ∧
  (output ← serializeBinary sampleNode; deserializeBinary output)
    = Ok (mkNode (Some (-5)) (Some "eu-west") None (Some "10.0.0.1") None).
Proof. by vm_compute. Qed.

(** [writeInt32] refuses an id outside [int32]. *)
Example serializeBinary_id_out_of_range :
  serializeBinary (mkNode (Some (2 ^ 31)) None None None None) = Throw.
Proof. by vm_compute. Qed.

End CodecExamples.

(* ===================================================================== *)
(** * Part III: further properties of the code                            *)
(* ===================================================================== *)

(** ** Slots and players *)

Section GameSlots.
Import Game GameSelectors.

Implicit Types (slots : list (option Slot.t)) (players : list PlayerRef.t).

(** The players of the occupied slots, in slot order. *)
Lemma pushPlayers_dense slots :
  ∀ players,
    dense slots →
    pushPlayers players slots = Ok (players ++ omap (λ o, o ≫= Slot.player) slots).
Proof.
  induction slots as [|o slots IH]; intros players Hdense.
  - simpl. by rewrite app_nil_r.
  - destruct o as [slot|]; [|by destruct (Hdense 0%nat)].
    simpl. rewrite IH by (intros j; apply (Hdense (S j))).
    destruct (Slot.player slot); simpl; [by rewrite <- app_assoc | done].
Qed.

Lemma pushPlayers_hole slots :
  ∀ players, ¬ dense slots → pushPlayers players slots = Throw.
Proof.
  induction slots as [|o slots IH]; intros players Hholes.
  - destruct Hholes. intros j. by rewrite lookup_nil.
  - destruct o as [slot|]; [|done]. simpl. apply IH.
    intros Hdense. apply Hholes. intros [|j]; [done | apply Hdense].
Qed.

(** Replacing a slot by one with the same player. *)
Lemma pushPlayers_insert_same_player slots (i : nat) (slot slot' : Slot.t) :
  ∀ players,
    slots !! i = Some (Some slot) →
    Slot.player slot' = Slot.player slot →
    pushPlayers players (<[i := Some slot']> slots) = pushPlayers players slots.
Proof.
  revert i. induction slots as [|o slots IH]; intros i players Hi Hp.
  - by rewrite lookup_nil in Hi.
  - destruct i as [|i]; simpl in *.
    + injection Hi as ->. by rewrite Hp.
    + destruct o as [s|]; [|done]. by apply IH.
Qed.

(** X1. [updateSlot] never changes who is in the game: whatever the state
    and the payload (stale game, index out of range, hole), the players
    [selectCurrentGamePlayers] lists are the same before and after, and so
    is the number of slots. *)
Theorem updateSlot_keeps_players (state : GameState) (payload : GameSlotUpdateMessage.t) :
  let state' := step state (UpdateSlot payload) in
  selectCurrentGamePlayers (currentGame state')
    = selectCurrentGamePlayers (currentGame state) ∧
  (length <$> (GameInfo.slots <$> currentGame state'))
    = (length <$> (GameInfo.slots <$> currentGame state)).
Proof.
  intros state'. subst state'. unfold step. cbn [reducer].
  unfold updateSlot, matchingGame.
  destruct (currentGame state) as [g|] eqn:Hg; [|simpl; by rewrite Hg].
  case_decide as Hid; [|simpl; by rewrite Hg].
  destruct (GameInfo.slots g !! _) as [[slot|]|] eqn:Hslot; simpl;
    rewrite ?Hg; try done.
  split.
  - by apply pushPlayers_insert_same_player with slot.
  - by rewrite length_insert.
Qed.


Lemma array_set_lookup {A : Type} (arr : list (option A)) (i : nat) (x : A) :
  array_set arr i x !! i = Some (Some x) ∧
  length (array_set arr i x) = (length arr `max` S i)%nat ∧
  (∀ j, j ≠ i → (j < length arr)%nat → array_set arr i x !! j = arr !! j) ∧
  (∀ j, (length arr ≤ j < i)%nat → array_set arr i x !! j = Some None).
Proof.
  unfold array_set. case_decide as Hi.
  - split; [by apply list_lookup_insert_eq|].
    split; [rewrite length_insert; lia|].
    split; [intros j Hj _; by apply list_lookup_insert_ne | intros j Hj; lia].
  - split; [|split; [|split]].
    + rewrite lookup_app_r by lia. rewrite lookup_app_r by (rewrite length_replicate; lia).
      rewrite length_replicate. by replace (i - length arr - (i - length arr))%nat with 0%nat by lia.
    + rewrite !length_app, length_replicate. simpl. lia.
    + intros j Hj Hlt. by rewrite lookup_app_l.
    + intros j Hj. rewrite lookup_app_r by lia.
      rewrite lookup_app_l by (rewrite length_replicate; lia).
      apply lookup_replicate_2. lia.
Qed.


End GameSlots.

Section GameEnterLeave.
Import Game GameSelectors.

Implicit Types (slots : list (option Slot.t)).

Lemma find_from_hole (cb : Slot.t → bool) slots :
  ∀ (k : nat) (rest : list (option Slot.t)),
    (∀ j s, slots !! j = Some (Some s) → cb s = false) →
    find_from cb k (slots ++ None :: rest) = Throw.
Proof.
  induction slots as [|o slots IH]; intros k rest Hnone; [done|].
  destruct o as [s|]; [|done]. simpl.
  rewrite (Hnone 0%nat s) by done. apply IH.
  intros j s' Hj. by apply (Hnone (S j)).
Qed.

Lemma set_currentGame_twice (g1 g2 : option GameInfo.t) (state : GameState) :
  set_currentGame g1 (set_currentGame g2 state) = set_currentGame g1 state.
Proof. reflexivity. Qed.

(** X4. A player who enters and then leaves.  With a current game of that
    id, after [updatePlayerEnter] puts a slot held by player [p] at an index
    [i] such that the slots before [i] exist and hold other players or
    none, [updatePlayerLeave] for [p] vacates exactly that slot: it keeps
    its place and its other settings, with [player = null] and
    [status = Open].  If instead [i] lies beyond the end of the array and
    no slot held [p], the holes [updatePlayerEnter] left make
    [updatePlayerLeave] throw. *)
Theorem enter_then_leave (state : GameState) (g : GameInfo.t)
    (i : nat) (slot : Slot.t) (p : PlayerRef.t) :
  currentGame state = Some g →
  Slot.player slot = Some p →
  let entered :=
    updatePlayerEnter state (GamePlayerEnterMessage.mk (GameInfo.id g) i slot) in
  let leave := GamePlayerLeaveMessage.mk (GameInfo.id g) (PlayerRef.id p) in
  ((∀ j, (j < i)%nat →
      ∃ s, GameInfo.slots g !! j = Some (Some s) ∧
           playerIs (PlayerRef.id p) s = false) →
   ∃ slots',
     updatePlayerLeave entered leave
       = Ok (set_currentGame (Some (set_slots slots' g)) state) ∧
     slots' !! i =
       Some (Some (Slot.mk
                     (SlotSettings.mk Open (SlotSettings.other (Slot.settings slot)))
                     None)) ∧
     length slots' = (length (GameInfo.slots g) `max` S i)%nat ∧
     ∀ j, j ≠ i → (j < length (GameInfo.slots g))%nat →
          slots' !! j = GameInfo.slots g !! j) ∧
  ((length (GameInfo.slots g) < i)%nat →
   (∀ j s, GameInfo.slots g !! j = Some (Some s) →
           playerIs (PlayerRef.id p) s = false) →
   updatePlayerLeave entered leave = Throw ∧
   step entered (UpdatePlayerLeave leave) = entered).
Proof.
  intros Hg Hp entered leave.
  assert (Hentered : entered =
            set_currentGame
              (Some (set_slots (array_set (GameInfo.slots g) i slot) g)) state).
  { subst entered. unfold updatePlayerEnter. simpl.
    by rewrite (matchingGame_current _ _ Hg). }
  assert (Hmatch : matchingGame entered (GameInfo.id g) =
            Some (set_slots (array_set (GameInfo.slots g) i slot) g)).
  { rewrite Hentered. unfold matchingGame. simpl. by rewrite decide_True. }
  assert (Hcb : playerIs (PlayerRef.id p) slot = true).
  { unfold playerIs. rewrite Hp. by apply bool_decide_eq_true. }
  destruct (array_set_lookup (GameInfo.slots g) i slot)
    as (Hat & Hlen & Hother & Hholes).
  split.
  - intros Hbefore.
    exists (<[i := Some (vacate slot)]> (array_set (GameInfo.slots g) i slot)).
    split; [|split; [|split]].
    + unfold updatePlayerLeave. subst leave. simpl. rewrite Hmatch.
      unfold find. simpl.
      rewrite (find_from_first _ _ 0%nat i slot Hat Hcb).
      * by rewrite Hentered.
      * intros j Hj. destruct (Hbefore j Hj) as (s & Hs & Hcbs).
        exists s. split; [|done]. rewrite Hother; [done | lia |].
        by eapply lookup_lt_Some.
    + apply list_lookup_insert_eq. by eapply lookup_lt_Some.
    + by rewrite length_insert.
    + intros j Hj Hlt. rewrite list_lookup_insert_ne by done. by apply Hother.
  - intros Hbeyond Hnone.
    assert (Hthrow : updatePlayerLeave entered leave = Throw).
    { unfold updatePlayerLeave. subst leave. simpl. rewrite Hmatch.
      unfold find. simpl. unfold array_set.
      rewrite decide_False by lia.
      destruct (i - length (GameInfo.slots g))%nat as [|n] eqn:Hn; [lia|].
      simpl replicate. rewrite <- app_comm_cons.
      by rewrite find_from_hole. }
    split; [done|]. unfold step. simpl. by rewrite Hthrow.
Qed.

(** X5. The players listed after a player left.  On an array without
    holes where some slot is held by the player, [selectCurrentGamePlayers]
    lists, after [updatePlayerLeave], the players it listed before without
    the first one of that id. *)
Theorem updatePlayerLeave_players (state : GameState)
    (payload : GamePlayerLeaveMessage.t) (g : GameInfo.t) :
  currentGame state = Some g →
  GameInfo.id g = GamePlayerLeaveMessage.game_id payload →
  dense (GameInfo.slots g) →
  (∃ j s, GameInfo.slots g !! j = Some (Some s) ∧
          playerIs (GamePlayerLeaveMessage.player_id payload) s = true) →
  ∃ (p : PlayerRef.t) (before after : list PlayerRef.t),
    PlayerRef.id p = GamePlayerLeaveMessage.player_id payload ∧
    Forall (λ q, PlayerRef.id q ≠ GamePlayerLeaveMessage.player_id payload) before ∧
    selectCurrentGamePlayers (currentGame state) = Ok (before ++ p :: after) ∧
    selectCurrentGamePlayers
      (currentGame (step state (UpdatePlayerLeave payload)))
      = Ok (before ++ after).
Proof.
  intros Hg Hid Hdense Hsome.
  destruct (find_from_some _ _ Hdense Hsome) as (i & slot & Hi & Hcb & Hbefore).
  assert (Hplayer : ∃ p, Slot.player slot = Some p ∧
                         PlayerRef.id p = GamePlayerLeaveMessage.player_id payload).
  { unfold playerIs in Hcb. destruct (Slot.player slot) as [p|]; [|done].
    exists p. split; [done|]. by apply bool_decide_eq_true in Hcb. }
  destruct Hplayer as (p & Hp & Hpid).
  set (f := λ o : option Slot.t, o ≫= Slot.player).
  exists p, (omap f (take i (GameInfo.slots g))),
            (omap f (drop (S i) (GameInfo.slots g))).
  split; [done|]. split; [|split].
  - apply Forall_forall. intros q Hq.
    apply list_elem_of_omap in Hq as (o & Ho & Hfo).
    apply list_elem_of_lookup in Ho as (j & Hj).
    apply lookup_take_Some in Hj as (Hj & Hlt).
    destruct (Hbefore j Hlt) as (s & Hs & Hcbs).
    rewrite Hs in Hj. injection Hj as <-. simpl in Hfo.
    unfold playerIs in Hcbs. rewrite Hfo in Hcbs.
    by apply bool_decide_eq_false in Hcbs.
  - rewrite Hg. simpl. rewrite pushPlayers_dense by done. simpl.
    rewrite <- (take_drop_middle _ _ _ Hi) at 1.
    rewrite omap_app. simpl. fold f. by rewrite Hp.
  - unfold step. simpl. unfold updatePlayerLeave.
    rewrite <- Hid, (matchingGame_current _ _ Hg). unfold find.
    rewrite (find_from_first _ _ 0%nat i slot Hi Hcb Hbefore). simpl.
    rewrite pushPlayers_dense.
    + simpl. rewrite insert_take_drop by (by eapply lookup_lt_Some).
      rewrite omap_app. by simpl.
    + intros j. destruct (decide (j = i)) as [->|Hne].
      * rewrite list_lookup_insert_eq by (by eapply lookup_lt_Some). done.
      * rewrite list_lookup_insert_ne by done. apply Hdense.
Qed.

End GameEnterLeave.

Section GameFlags.
Import Game GameSelectors.

Lemma initialState_flags : loadingFlagsConsistent initialState.
Proof. by repeat split. Qed.

Lemma step_keeps_flags (state : GameState) (a : Action) :
  loadingFlagsConsistent state → loadingFlagsConsistent (step state a).
Proof.
  intros (Hnode & Hsnap & Hcreate). unfold step.
  destruct a as [|g|p| |p|p|p| |p|p| |e]; cbn [reducer commit];
    try (by repeat split).
  - unfold updateSlot. destruct (matchingGame state _) as [g|]; [|by repeat split].
    by destruct (GameInfo.slots g !! _) as [[slot|]|].
  - unfold updateNode. by destruct (matchingGame state _).
  - unfold updatePlayerEnter. by destruct (matchingGame state _).
  - unfold updatePlayerLeave. destruct (matchingGame state _) as [g|]; [|by repeat split].
    by destruct (find _ _) as [[[i slot]|]|].
  - unfold updateCurrentPing. destruct (currentPingMap state) as [cpm|]; [|done].
    by destruct (cpm !! _).
Qed.

(** X6. In every state the [game] slice reaches from its initial state,
    whatever the actions (those that throw included), a loading flag that
    is up goes with an empty value: [currentNodeLoading] with
    [currentNodeId = null], [pingSnapshotLoading] with
    [pingSnapshot = null], [createGameLoading] with
    [createGameError = null]. *)
Theorem loading_flags_invariant (actions : list Action) :
  let state := run initialState actions in
  (currentNodeLoading state = true → currentNodeId state = None) ∧
  (pingSnapshotLoading state = true → pingSnapshot state = None) ∧
  (createGameLoading state = true → createGameError state = None).
Proof.
  intros state. subst state.
  change (loadingFlagsConsistent (run initialState actions)).
  generalize initialState_flags. generalize initialState.
  induction actions as [|a actions IH]; intros state Hflags; [done|].
  apply IH. by apply step_keeps_flags.
Qed.

End GameFlags.

Section GamePingReplay.
Import Game GameSelectors.

(** X7. Last write wins.  After a replay of ping deltas, the ping held for
    a player and a node is the one of the last delta of that player with an
    entry for that node, or the ping held before if there is none; and a
    player has a map iff it had one or some delta is for that player. *)
Theorem replay_last_write_wins (state : GameState)
    (deltas : list GamePlayerPingMapUpdateMessage.t) (player_id : Z)
    (node_id : string) :
  pingOf (applyPings state deltas) (propertyKey player_id) node_id =
    match last (filter (touches player_id node_id) deltas) with
    | Some d => GamePlayerPingMapUpdateMessage.ping_map d !! node_id
    | None => pingOf state (propertyKey player_id) node_id
    end ∧
  (is_Some (mapOf (applyPings state deltas) (propertyKey player_id)) ↔
   is_Some (mapOf state (propertyKey player_id)) ∨
   ∃ d, d ∈ deltas ∧ GamePlayerPingMapUpdateMessage.player_id d = player_id).
Proof.
  split.
  - by rewrite pingOf_applyPings, filter_touches_key.
  - rewrite mapOf_applyPings_is_Some. apply or_iff_compat_l.
    split; intros (d & Hd & Hk); exists d; (split; [done|]).
    + by apply (inj pretty).
    + by rewrite Hk.
Qed.

(** X8. Selecting a node, or replacing the game, discards the pings
    measured so far: after [updateNode] for the current game, or after
    [updateCurrentGame], every ping the state holds comes from a delta
    received afterwards. *)
Theorem pings_discarded_on_reset (state : GameState) (reset : Action)
    (deltas : list GamePlayerPingMapUpdateMessage.t) (player_id : Z)
    (node_id : string) :
  (∃ payload g,
     reset = UpdateNode payload ∧ currentGame state = Some g ∧
     GameInfo.id g = GameSelectNodeMessage.game_id payload) ∨
  (∃ payload, reset = UpdateCurrentGame payload) →
  pingOf (applyPings (step state reset) deltas) (propertyKey player_id) node_id =
    match last (filter (touches player_id node_id) deltas) with
    | Some d => GamePlayerPingMapUpdateMessage.ping_map d !! node_id
    | None => None
    end.
Proof.
  intros Hreset.
  assert (Hnone : currentPingMap (step state reset) = None).
  { destruct Hreset as [(payload & g & -> & Hg & Hid) | (payload & ->)];
      unfold step; simpl; [|done].
    unfold updateNode. by rewrite <- Hid, (matchingGame_current _ _ Hg). }
  rewrite pingOf_applyPings, filter_touches_key.
  destruct (last _); [done|]. unfold pingOf, mapOf. by rewrite Hnone.
Qed.

End GamePingReplay.

(** ** Derived views *)

Section GameViews.
Import Game GameSelectors.

(** X9. [selectCurrentNode] returns the first node of the catalog whose id
    is [currentNodeId], and nothing when no node is selected, when the
    selected id is 0 (which [!id] takes for no selection), or when no node
    of the catalog has the id. *)
Theorem selectCurrentNode_spec (id : option Z) (nodes : list Node.t) :
  (∀ node, selectCurrentNode id nodes = Some node →
     id = Some (Node.id node) ∧ Node.id node ≠ 0 ∧
     ∃ i, nodes !! i = Some node ∧
          ∀ j other, (j < i)%nat → nodes !! j = Some other →
                     Some (Node.id other) ≠ id) ∧
  (selectCurrentNode id nodes = None ↔
     id = None ∨ id = Some 0 ∨ ∀ node, node ∈ nodes → Some (Node.id node) ≠ id).
Proof.
  unfold selectCurrentNode. destruct id as [id|]; [|split; [done | by split; [left|]]].
  case_decide as Hzero.
  { subst id. split; [done|]. split; [by right; left | done]. }
  case_decide as Hempty.
  { destruct nodes; [|done]. split; [done|]. split; [|done].
    intros _. right; right. intros node Hnode. by apply elem_of_nil in Hnode. }
  destruct (list_find _ nodes) as [[i found]|] eqn:Hfind; simpl.
  - apply list_find_Some in Hfind as (Hi & Hid & Hbefore). split.
    + intros node [= <-]. split; [by rewrite Hid|]. split; [by rewrite Hid|].
      exists i. split; [done|]. intros j other Hj Hother [= Heq].
      by apply (Hbefore j other).
    + split; [done|]. intros [H|[H|H]]; [done | by injection H |].
      destruct (H found); [|by rewrite Hid]. apply list_elem_of_lookup. by exists i.
  - apply list_find_None in Hfind. split; [done|]. split; [|done].
    intros _. right; right. intros node Hnode [= Heq].
    rewrite Forall_forall in Hfind. by apply (Hfind node).
Qed.

Lemma collectPings_lookup (nodeIdString : string)
    (entries : list (string * gmap string Z)) :
  ∀ (r : gmap string (option Z)) (k : string),
    NoDup entries.*1 →
    collectPings nodeIdString r entries !! k =
      match (list_to_map entries : gmap string (gmap string Z)) !! k
              ≫= (.!! nodeIdString) with
      | Some ping => Some (Some ping)
      | None => r !! k
      end.
Proof.
  induction entries as [|[k0 m0] entries IH]; intros r k Hnd.
  - simpl. by rewrite lookup_empty.
  - apply NoDup_cons in Hnd as [Hk0 Hnd].
    change (collectPings nodeIdString
              (match m0 !! nodeIdString with
               | Some ping => <[k0 := Some ping]> r
               | None => r
               end) entries !! k = 
            match <[k0 := m0]> (list_to_map entries : gmap string (gmap string Z)) !! k
                    ≫= (.!! nodeIdString) with
            | Some ping => Some (Some ping)
            | None => r !! k
            end).
    rewrite (IH _ _ Hnd).
    destruct (decide (k0 = k)) as [->|Hne].
    + rewrite lookup_insert_eq.
      rewrite (not_elem_of_list_to_map_1 (M := gmap string) _ _ Hk0). simpl.
      destruct (m0 !! nodeIdString); [by rewrite lookup_insert_eq | done].
    + rewrite lookup_insert_ne by done.
      destruct (_ ≫= _); [done|].
      destruct (m0 !! nodeIdString); [by rewrite lookup_insert_ne | done].
Qed.

(** X10. [selectCurrentNodePingMap] is [null] exactly when the node, the
    ping map or the player info is missing.  Otherwise its entry for a
    player is the ping that player's map holds for the selected node; a
    player without such a ping has no entry, except the local player, who
    then gets the node's own [ping]. *)
Theorem selectCurrentNodePingMap_spec (node : option Node.t)
    (pingMap : option (gmap string (gmap string Z))) (playerInfo : option Z) :
  (selectCurrentNodePingMap node pingMap playerInfo = None ↔
     node = None ∨ pingMap = None ∨ playerInfo = None) ∧
  (∀ n pm me r,
     node = Some n → pingMap = Some pm → playerInfo = Some me →
     selectCurrentNodePingMap node pingMap playerInfo = Some r →
     ∀ k, r !! k =
            match pm !! k ≫= (.!! propertyKey (Node.id n)) with
            | Some ping => Some (Some ping)
            | None => if decide (k = propertyKey me)
                      then Some (Node.ping n) else None
            end).
Proof.
  split.
  - unfold selectCurrentNodePingMap.
    destruct node, pingMap, playerInfo; split; try done; try tauto;
      intros [H|[H|H]]; done.
  - intros n pm me r -> -> -> [= <-] k.
    rewrite collectPings_lookup by apply NoDup_fst_map_to_list.
    rewrite list_to_map_to_list.
    destruct (_ ≫= _); [done|].
    case_decide as Hk.
    + subst k. apply lookup_singleton_eq.
    + by apply lookup_singleton_ne.
Qed.

(** X11. A ping delta for the selected node shows in the derived view:
    after [updateCurrentPing] with a delta that has a ping for the node,
    [selectCurrentNodePingMap] holds that ping for the delta's player,
    whatever the state before. *)
Theorem delta_shows_in_node_view (state : GameState)
    (d : GamePlayerPingMapUpdateMessage.t) (n : Node.t) (me ping : Z) :
  GamePlayerPingMapUpdateMessage.ping_map d !! propertyKey (Node.id n) = Some ping →
  ∃ r,
    selectCurrentNodePingMap (Some n)
      (currentPingMap (updateCurrentPing state d)) (Some me) = Some r ∧
    r !! propertyKey (GamePlayerPingMapUpdateMessage.player_id d) = Some (Some ping).
Proof.
  intros Hping.
  destruct (currentPingMap (updateCurrentPing state d)) as [pm|] eqn:Hpm.
  2: { by rewrite updateCurrentPing_mergePing in Hpm. }
  eexists. split; [reflexivity|].
  rewrite collectPings_lookup by apply NoDup_fst_map_to_list.
  rewrite list_to_map_to_list.
  pose proof (mapOf_step state d (keyOf d)) as Hstep.
  unfold mapOf in Hstep. rewrite Hpm in Hstep. simpl in Hstep.
  rewrite decide_True in Hstep by done. rewrite Hstep. simpl.
  by rewrite merge_overwrite_lookup, Hping.
Qed.

End GameViews.

(** ** Connection state and dispatch *)

Section WsDispatch.
Import Dispatch.

(** X12. No inbound message moves the link status or the link error:
    whatever the envelope, the actions [dispatchMessage] dispatches leave
    [status] and [error] of the connection state as they were. *)
Theorem dispatch_keeps_status_and_error (pathname : string) (state : Ws.WsState)
    (msg : WsMessage) :
  Ws.status (wsAfterMessage pathname state msg) = Ws.status state ∧
  Ws.error (wsAfterMessage pathname state msg) = Ws.error state ∧
  Forall (λ a, ∀ a', a = WsAction a' →
            (∀ s, a' ≠ Ws.UpdateStatus s) ∧ (∀ e, a' ≠ Ws.UpdateError e) ∧
            a' ≠ Ws.SetWsDisconnected)
    (dispatched (dispatchMessage pathname msg)).
Proof.
  destruct msg; (split; [reflexivity|]); (split; [reflexivity|]); simpl;
    repeat (apply Forall_cons; split;
            [intros a' Ha'; try discriminate Ha'; injection Ha' as <-;
             by repeat split|]);
    apply Forall_nil_2.
Qed.

(** X13. [dispatchMessage] navigates in one case only: it pushes a route
    iff the envelope is a [CurrentGameInfo] and the current route is not
    "/lobby", and the route it pushes is "/lobby"; so once on "/lobby" no
    message navigates. *)
Theorem dispatch_navigation (pathname : string) (msg : WsMessage) (target : string) :
  pushed (dispatchMessage pathname msg) = Some target ↔
  target = "/lobby" ∧ type msg = CurrentGameInfo ∧ pathname ≠ "/lobby".
Proof.
  destruct msg; simpl; try (split; [discriminate | by intros (_ & ? & _)]).
  case_decide as Hpath; split.
  - by intros [= <-].
  - by intros (-> & _ & _).
  - discriminate.
  - intros (_ & _ & Hne). by destruct Hne.
Qed.

(** X14. A session reply ends the loading that [connect] started.
    [connect] raises [playerSessionLoading] and clears
    [playerSessionError]; dispatching then any of [PlayerSession],
    [PlayerSessionUpdate], [ConnectRejected] or [Disconnect] lowers the
    flag, and the two rejections also clear the session and record the
    reason. *)
Theorem connect_then_reply (pathname token : string) (state : Ws.WsState)
    (msg : WsMessage) :
  Thunks.sessionReply (type msg) = true →
  let connecting := Thunks.wsAfterThunk state (Thunks.connect token) in
  let replied := wsAfterMessage pathname connecting msg in
  Ws.playerSessionLoading connecting = true ∧
  Ws.playerSessionError connecting = None ∧
  Ws.playerSession connecting = Ws.playerSession state ∧
  Ws.playerSessionLoading replied = false ∧
  (∀ body, msg = MPlayerSession body →
     Ws.playerSession replied = Some body ∧ Ws.playerSessionError replied = None) ∧
  (∀ body, msg = MConnectRejected body ∨ msg = MDisconnect body →
     Ws.playerSession replied = None ∧
     Ws.playerSessionError replied
       = Some (Ws.errorOfMessage (Ws.ErrorMessage.message body))).
Proof.
  intros Hreply connecting replied. subst connecting replied.
  destruct msg; try discriminate Hreply;
    do 4 (split; [reflexivity|]);
    (split; intros body' H;
       [try discriminate H; injection H as <-; by split
       |destruct H as [H|H]; try discriminate H; injection H as <-; by split]).
Qed.

(** X15. [reloadClientInfo] raises [clientInfoReloading].  A
    [ReloadClientInfoError] reply lowers the flag, records the error and
    keeps the client info; a [ClientInfo] reply replaces the client info
    and leaves the flag as it is, up. *)
Theorem reloadClientInfo_then_reply (pathname : string) (state : Ws.WsState) :
  let reloading := Thunks.wsAfterThunk state Thunks.reloadClientInfo in
  Ws.clientInfoReloading reloading = true ∧
  Ws.clientInfo reloading = Ws.clientInfo state ∧
  (∀ body,
     let replied := wsAfterMessage pathname reloading (MClientInfo body) in
     Ws.clientInfo replied = Some body ∧
     Ws.clientInfoReloading replied = true ∧
     Ws.clientInfoReloadError replied = Ws.clientInfoReloadError state) ∧
  (∀ body,
     let replied := wsAfterMessage pathname reloading (MReloadClientInfoError body) in
     Ws.clientInfo replied = Ws.clientInfo state ∧
     Ws.clientInfoReloading replied = false ∧
     Ws.clientInfoReloadError replied
       = Some (Ws.errorOfMessage (Ws.ErrorMessage.message body))).
Proof. by repeat split. Qed.

(** X16. [updatePlayerSessionPartial] patches the session: a property of
    the payload replaces the session's, a property the payload lacks keeps
    its value, and without a session the payload becomes the session.
    Patching twice with the same payload is patching once. *)
Theorem updatePlayerSessionPartial_patch (state : Ws.WsState) (payload : gmap string JsValue) :
  let state' := Ws.updatePlayerSessionPartial state payload in
  (∃ session',
     Ws.playerSession state' = Some session' ∧
     ∀ k, session' !! k =
            match payload !! k with
            | Some v => Some v
            | None => Ws.playerSession state ≫= (.!! k)
            end) ∧
  (Ws.playerSession state = None → Ws.playerSession state' = Some payload) ∧
  Ws.playerSessionLoading state' = false ∧
  Ws.updatePlayerSessionPartial state' payload = state'.
Proof.
  intros state'. subst state'. split; [|split; [|split]].
  - eexists. split; [reflexivity|]. intros k.
    rewrite lookup_union.
    destruct (payload !! k), (Ws.playerSession state) as [session|]; simpl;
      rewrite ?lookup_empty; try done; by destruct (session !! k).
  - intros Hnone. simpl. rewrite Hnone. simpl. by rewrite (right_id_L ∅ (∪)).
  - done.
  - unfold Ws.updatePlayerSessionPartial. simpl. do 2 f_equal.
    apply map_eq. intros k. rewrite !lookup_union.
    by destruct (payload !! k), (default ∅ (Ws.playerSession state) !! k).
Qed.

(** X17. The socket closing and the [Disconnect] envelope can come in
    either order: reducing [setWsDisconnected] before or after the actions
    of a [Disconnect] envelope gives the same state, which is
    [Disconnected], without session and client info, with the flags down
    and with the reason in [disconnectError]. *)
Theorem disconnect_order (pathname : string) (state : Ws.WsState)
    (body : Ws.ErrorMessage.t) :
  let closedFirst :=
    wsAfterMessage pathname (Ws.setWsDisconnected state) (MDisconnect body) in
  let closedLast :=
    Ws.setWsDisconnected (wsAfterMessage pathname state (MDisconnect body)) in
  closedFirst = closedLast ∧
  Ws.status closedLast = Ws.Disconnected ∧
  Ws.playerSession closedLast = None ∧
  Ws.clientInfo closedLast = None ∧
  Ws.playerSessionLoading closedLast = false ∧
  Ws.clientInfoReloading closedLast = false ∧
  Ws.disconnectError closedLast
    = Some (Ws.errorOfMessage (Ws.ErrorMessage.message body)) ∧
  Ws.setWsDisconnected closedLast = closedLast.
Proof.
  intros closedFirst closedLast. subst closedFirst closedLast.
  unfold wsAfterMessage. simpl.
  repeat split; try reflexivity;
    unfold Ws.setWsDisconnected; simpl;
    by destruct (Ws.clientInfoReloading state), (Ws.playerSessionLoading state).
Qed.

End WsDispatch.

(** ** More on the codec of [proto.node.Node] *)

Section ReaderProgress.
Import NodePb.

Lemma readVarintBytes_shrinks (limit : nat) :
  ∀ (input group rest : list Z),
    readVarintBytes limit input = Ok (group, rest) →
    (length rest < length input)%nat.
Proof.
  induction limit as [|limit IH]; intros input group rest Hread; [done|].
  destruct input as [|b input]; [done|]. simpl in Hread.
  case_decide.
  - injection Hread as _ <-. simpl. lia.
  - destruct (readVarintBytes limit input) as [[g r]|] eqn:E; [|done].
    simpl in Hread. injection Hread as _ <-.
    apply IH in E. simpl. lia.
Qed.

Lemma readUnsignedVarint32_shrinks (input rest : list Z) (x : Z) :
  readUnsignedVarint32 input = Ok (x, rest) → (length rest < length input)%nat.
Proof.
  unfold readUnsignedVarint32.
  destruct (readVarintBytes 10 input) as [[g r]|] eqn:E; [|done].
  simpl. intros [= _ <-]. by eapply readVarintBytes_shrinks.
Qed.

Lemma nextField_shrinks (reader reader' : BinaryReader) :
  nextField reader = Ok (true, reader') →
  (length (decoder_ reader') < length (decoder_ reader))%nat.
Proof.
  unfold nextField. destruct (decoder_ reader) as [|b input] eqn:Hd; [done|].
  destruct (readUnsignedVarint32 (b :: input)) as [[x rest]|] eqn:E; [|done].
  simpl. destruct (validWireType _); [|done].
  intros [= <-]. apply readUnsignedVarint32_shrinks in E. simpl in *. lia.
Qed.

(** The loop reads the input only, not the field the reader stood on. *)
Lemma deserializeLoop_input (fuel : nat) (msg : Node) (input : list Z)
    (fld wt fld' wt' : Z) :
  deserializeLoop fuel msg (mkReader input fld wt)
    = deserializeLoop fuel msg (mkReader input fld' wt').
Proof. destruct fuel as [|fuel]; [done|]. by destruct input. Qed.

Lemma readInt32_shrinks (reader reader' : BinaryReader) (value : Z) :
  readInt32 reader = Ok (value, reader') →
  (length (decoder_ reader') ≤ length (decoder_ reader))%nat.
Proof.
  unfold readInt32, readSignedVarint32. case_decide; [|done].
  destruct (readUnsignedVarint32 (decoder_ reader)) as [[x rest]|] eqn:E; [|done].
  simpl. intros [= _ <-]. simpl. apply readUnsignedVarint32_shrinks in E. lia.
Qed.

Lemma readString_shrinks (reader reader' : BinaryReader) (value : string) :
  readString reader = Ok (value, reader') →
  (length (decoder_ reader') ≤ length (decoder_ reader))%nat.
Proof.
  unfold readString, decoderReadString. case_decide; [|done].
  destruct (readUnsignedVarint32 (decoder_ reader)) as [[x rest]|] eqn:E; [|done].
  simpl. case_decide; [|done]. simpl. intros [= _ <-]. simpl.
  apply readUnsignedVarint32_shrinks in E. rewrite length_drop. lia.
Qed.

Lemma skipVarint_shrinks (input rest : list Z) :
  skipVarint input = Ok rest → (length rest ≤ length input)%nat.
Proof.
  induction input as [|b input IH]; [done|]. simpl.
  case_decide; [|intros [= <-]; lia].
  intros Hskip. apply IH in Hskip. lia.
Qed.

Lemma advance_shrinks (count : Z) (input rest : list Z) :
  advance count input = Ok rest → (length rest ≤ length input)%nat.
Proof.
  unfold advance. case_decide; [|done]. intros [= <-]. rewrite length_drop. lia.
Qed.

Lemma skipField__shrinks (fuel : nat) :
  (∀ reader reader',
     skipField_ fuel reader = Ok reader' →
     (length (decoder_ reader') ≤ length (decoder_ reader))%nat) ∧
  (∀ previousField reader reader',
     skipGroup_ fuel previousField reader = Ok reader' →
     (length (decoder_ reader') ≤ length (decoder_ reader))%nat).
Proof.
  induction fuel as [|fuel [IHfield IHgroup]]; [by split|]. split.
  - intros reader reader'. simpl.
    repeat case_decide; try done.
    + destruct (skipVarint (decoder_ reader)) as [rest|] eqn:E; [|done].
      simpl. intros [= <-]. simpl. by apply skipVarint_shrinks.
    + destruct (advance 8 (decoder_ reader)) as [rest|] eqn:E; [|done].
      simpl. intros [= <-]. simpl. by eapply advance_shrinks.
    + destruct (readUnsignedVarint32 (decoder_ reader)) as [[len rest]|] eqn:E;
        [|done].
      simpl. destruct (advance len rest) as [rest'|] eqn:E'; [|done].
      simpl. intros [= <-]. simpl.
      apply readUnsignedVarint32_shrinks in E. apply advance_shrinks in E'. lia.
    + destruct (advance 4 (decoder_ reader)) as [rest|] eqn:E; [|done].
      simpl. intros [= <-]. simpl. by eapply advance_shrinks.
    + apply IHgroup.
  - intros previousField reader reader'. simpl.
    destruct (nextField reader) as [[[] reader1]|] eqn:E; try done.
    apply nextField_shrinks in E.
    case_decide.
    + case_decide; [done|]. intros [= <-]. lia.
    + destruct (skipField_ fuel reader1) as [reader2|] eqn:E2; [|done].
      simpl. intros Hgroup. apply IHfield in E2. apply IHgroup in Hgroup. lia.
Qed.

Lemma skipField_shrinks (reader reader' : BinaryReader) :
  skipField reader = Ok reader' →
  (length (decoder_ reader') ≤ length (decoder_ reader))%nat.
Proof. apply skipField__shrinks. Qed.

(** The fuel of the deserialization loop is never what stops it: above
    the length of the input, any fuel gives the same result. *)
Lemma deserializeLoop_fuel (n : nat) :
  ∀ (fuel1 fuel2 : nat) (msg : Node) (reader : BinaryReader),
    (length (decoder_ reader) ≤ n)%nat →
    (length (decoder_ reader) < fuel1)%nat →
    (length (decoder_ reader) < fuel2)%nat →
    deserializeLoop fuel1 msg reader = deserializeLoop fuel2 msg reader.
Proof.
  induction n as [|n IH]; intros fuel1 fuel2 msg reader Hn H1 H2;
    (destruct fuel1 as [|fuel1]; [lia|]); (destruct fuel2 as [|fuel2]; [lia|]);
    cbn [deserializeLoop];
    destruct (nextField reader) as [[[] reader1]|] eqn:E; try done;
    apply nextField_shrinks in E; [lia|].
  destruct (isEndGroup reader1); [done|]. cbv zeta.
  repeat case_decide.
  - destruct (readInt32 reader1) as [[v reader2]|] eqn:E2; [|done].
    apply readInt32_shrinks in E2. simpl. apply IH; lia.
  - destruct (readString reader1) as [[v reader2]|] eqn:E2; [|done].
    apply readString_shrinks in E2. simpl. apply IH; lia.
  - destruct (readString reader1) as [[v reader2]|] eqn:E2; [|done].
    apply readString_shrinks in E2. simpl. apply IH; lia.
  - destruct (readString reader1) as [[v reader2]|] eqn:E2; [|done].
    apply readString_shrinks in E2. simpl. apply IH; lia.
  - destruct (readString reader1) as [[v reader2]|] eqn:E2; [|done].
    apply readString_shrinks in E2. simpl. apply IH; lia.
  - destruct (skipField reader1) as [reader2|] eqn:E2; [|done].
    apply skipField_shrinks in E2. simpl. apply IH; lia.
Qed.

(** The loop, started on an input, is [deserializeBinaryFromReader]. *)
Lemma deserializeLoop_enough (fuel : nat) (msg : Node) (input : list Z) (fld wt : Z) :
  (length input < fuel)%nat →
  deserializeLoop fuel msg (mkReader input fld wt)
    = deserializeBinaryFromReader msg (newReader input).
Proof.
  intros Hfuel. unfold deserializeBinaryFromReader, newReader. simpl decoder_.
  destruct fuel as [|fuel]; [lia|].
  rewrite (deserializeLoop_input _ _ _ fld wt (-1) (-1)).
  apply (deserializeLoop_fuel (length input)); simpl; lia.
Qed.

End ReaderProgress.

Section RecordByRecord.
Import NodePb NodeObject.

Lemma int32Record_length (field v : Z) : (1 ≤ length (int32Record field v))%nat.
Proof.
  unfold int32Record. rewrite length_app.
  pose proof (writeFieldHeader_length field VARINT). lia.
Qed.

Lemma stringRecord_length (field : Z) (s : string) :
  (1 ≤ length (stringRecord field s))%nat.
Proof.
  unfold stringRecord. rewrite length_app.
  pose proof (writeFieldHeader_length field DELIMITED). lia.
Qed.

Lemma loop_id_record (fuel : nat) (msg : Node) (v : Z) (rest : list Z) (fld wt : Z) :
  - 2 ^ 31 <= v < 2 ^ 31 →
  (length (int32Record 1 v ++ rest) < fuel)%nat →
  deserializeLoop fuel msg (mkReader (int32Record 1 v ++ rest) fld wt)
    = deserializeBinaryFromReader (setId msg v) (newReader rest).
Proof.
  intros Hv Hfuel. destruct fuel as [|fuel]; [lia|].
  pose proof (int32Record_length 1 v) as Hlen.
  unfold int32Record in *. rewrite <- !app_assoc in *.
  cbn [deserializeLoop]. rewrite nextField_header by done.
  change (isEndGroup (mkReader _ 1 VARINT)) with false. cbv iota zeta.
  change (getFieldNumber (mkReader _ 1 VARINT)) with 1.
  rewrite decide_True by done.
  rewrite readInt32_record by done. rewrite bind_Ok.
  apply deserializeLoop_enough. rewrite !length_app in *. lia.
Qed.

Lemma decode_id_record (msg : Node) (v : Z) (rest : list Z) :
  - 2 ^ 31 <= v < 2 ^ 31 →
  deserializeBinaryFromReader msg (newReader (int32Record 1 v ++ rest))
    = deserializeBinaryFromReader (setId msg v) (newReader rest).
Proof.
  intros Hv. unfold deserializeBinaryFromReader at 1.
  apply loop_id_record; [done | simpl; lia].
Qed.

Ltac loop_string_step k Hs Hfuel :=
  let Hlen := fresh "Hlen" in
  match goal with
  | |- context [stringRecord k ?s] => pose proof (stringRecord_length k s) as Hlen
  end;
  unfold stringRecord in *; rewrite <- !app_assoc in *;
  cbn [deserializeLoop]; rewrite nextField_header by done;
  change (isEndGroup (mkReader _ k DELIMITED)) with false; cbv iota zeta;
  change (getFieldNumber (mkReader _ k DELIMITED)) with k;
  repeat (rewrite decide_False by done);
  rewrite decide_True by done;
  rewrite readString_record by exact Hs; rewrite bind_Ok;
  apply deserializeLoop_enough; rewrite !length_app in *; lia.

Lemma loop_name_record (fuel : nat) (msg : Node) (s : string) (rest : list Z)
    (fld wt : Z) :
  Z.of_nat (String.length s) < 2 ^ 32 →
  (length (stringRecord 2 s ++ rest) < fuel)%nat →
  deserializeLoop fuel msg (mkReader (stringRecord 2 s ++ rest) fld wt)
    = deserializeBinaryFromReader (setName msg s) (newReader rest).
Proof.
  intros Hs Hfuel. destruct fuel as [|fuel]; [lia|]. loop_string_step 2 Hs Hfuel.
Qed.

Lemma loop_location_record (fuel : nat) (msg : Node) (s : string) (rest : list Z)
    (fld wt : Z) :
  Z.of_nat (String.length s) < 2 ^ 32 →
  (length (stringRecord 3 s ++ rest) < fuel)%nat →
  deserializeLoop fuel msg (mkReader (stringRecord 3 s ++ rest) fld wt)
    = deserializeBinaryFromReader (setLocation msg s) (newReader rest).
Proof.
  intros Hs Hfuel. destruct fuel as [|fuel]; [lia|]. loop_string_step 3 Hs Hfuel.
Qed.

Lemma loop_ipAddr_record (fuel : nat) (msg : Node) (s : string) (rest : list Z)
    (fld wt : Z) :
  Z.of_nat (String.length s) < 2 ^ 32 →
  (length (stringRecord 4 s ++ rest) < fuel)%nat →
  deserializeLoop fuel msg (mkReader (stringRecord 4 s ++ rest) fld wt)
    = deserializeBinaryFromReader (setIpAddr msg s) (newReader rest).
Proof.
  intros Hs Hfuel. destruct fuel as [|fuel]; [lia|]. loop_string_step 4 Hs Hfuel.
Qed.

Lemma loop_countryId_record (fuel : nat) (msg : Node) (s : string) (rest : list Z)
    (fld wt : Z) :
  Z.of_nat (String.length s) < 2 ^ 32 →
  (length (stringRecord 5 s ++ rest) < fuel)%nat →
  deserializeLoop fuel msg (mkReader (stringRecord 5 s ++ rest) fld wt)
    = deserializeBinaryFromReader (setCountryId msg s) (newReader rest).
Proof.
  intros Hs Hfuel. destruct fuel as [|fuel]; [lia|]. loop_string_step 5 Hs Hfuel.
Qed.

Lemma decode_name_record (msg : Node) (s : string) (rest : list Z) :
  Z.of_nat (String.length s) < 2 ^ 32 →
  deserializeBinaryFromReader msg (newReader (stringRecord 2 s ++ rest))
    = deserializeBinaryFromReader (setName msg s) (newReader rest).
Proof.
  intros Hs. unfold deserializeBinaryFromReader at 1.
  apply loop_name_record; [done | simpl; lia].
Qed.

Lemma decode_location_record (msg : Node) (s : string) (rest : list Z) :
  Z.of_nat (String.length s) < 2 ^ 32 →
  deserializeBinaryFromReader msg (newReader (stringRecord 3 s ++ rest))
    = deserializeBinaryFromReader (setLocation msg s) (newReader rest).
Proof.
  intros Hs. unfold deserializeBinaryFromReader at 1.
  apply loop_location_record; [done | simpl; lia].
Qed.

Lemma decode_ipAddr_record (msg : Node) (s : string) (rest : list Z) :
  Z.of_nat (String.length s) < 2 ^ 32 →
  deserializeBinaryFromReader msg (newReader (stringRecord 4 s ++ rest))
    = deserializeBinaryFromReader (setIpAddr msg s) (newReader rest).
Proof.
  intros Hs. unfold deserializeBinaryFromReader at 1.
  apply loop_ipAddr_record; [done | simpl; lia].
Qed.

Lemma decode_countryId_record (msg : Node) (s : string) (rest : list Z) :
  Z.of_nat (String.length s) < 2 ^ 32 →
  deserializeBinaryFromReader msg (newReader (stringRecord 5 s ++ rest))
    = deserializeBinaryFromReader (setCountryId msg s) (newReader rest).
Proof.
  intros Hs. unfold deserializeBinaryFromReader at 1.
  apply loop_countryId_record; [done | simpl; lia].
Qed.

Lemma loop_unknown_int32 (fuel : nat) (msg : Node) (field v : Z) (rest : list Z)
    (fld wt : Z) :
  unknownField field →
  - 2 ^ 31 <= v < 2 ^ 31 →
  (length (int32Record field v ++ rest) < fuel)%nat →
  deserializeLoop fuel msg (mkReader (int32Record field v ++ rest) fld wt)
    = deserializeBinaryFromReader msg (newReader rest).
Proof.
  intros Hfield Hv Hfuel. unfold unknownField in Hfield.
  destruct fuel as [|fuel]; [lia|].
  pose proof (int32Record_length field v) as Hlen.
  unfold int32Record in *. rewrite <- !app_assoc in *.
  cbn [deserializeLoop]. rewrite nextField_header by (done || lia).
  change (isEndGroup (mkReader _ field VARINT)) with false. cbv iota zeta.
  change (getFieldNumber (mkReader _ field VARINT)) with field.
  repeat (rewrite decide_False by lia).
  rewrite skipField_int32 by done. rewrite bind_Ok.
  apply deserializeLoop_enough. rewrite !length_app in *. lia.
Qed.

Lemma loop_unknown_string (fuel : nat) (msg : Node) (field : Z) (s : string)
    (rest : list Z) (fld wt : Z) :
  unknownField field →
  Z.of_nat (String.length s) < 2 ^ 32 →
  (length (stringRecord field s ++ rest) < fuel)%nat →
  deserializeLoop fuel msg (mkReader (stringRecord field s ++ rest) fld wt)
    = deserializeBinaryFromReader msg (newReader rest).
Proof.
  intros Hfield Hs Hfuel. unfold unknownField in Hfield.
  destruct fuel as [|fuel]; [lia|].
  pose proof (stringRecord_length field s) as Hlen.
  unfold stringRecord in *. rewrite <- !app_assoc in *.
  cbn [deserializeLoop]. rewrite nextField_header by (done || lia).
  change (isEndGroup (mkReader _ field DELIMITED)) with false. cbv iota zeta.
  change (getFieldNumber (mkReader _ field DELIMITED)) with field.
  repeat (rewrite decide_False by lia).
  rewrite skipField_string by done. rewrite bind_Ok.
  apply deserializeLoop_enough. rewrite !length_app in *. lia.
Qed.

Lemma decode_unknown_int32 (msg : Node) (field v : Z) (rest : list Z) :
  unknownField field →
  - 2 ^ 31 <= v < 2 ^ 31 →
  deserializeBinaryFromReader msg (newReader (int32Record field v ++ rest))
    = deserializeBinaryFromReader msg (newReader rest).
Proof.
  intros Hfield Hv. unfold deserializeBinaryFromReader at 1.
  apply loop_unknown_int32; [done | done | simpl; lia].
Qed.

Lemma decode_unknown_string (msg : Node) (field : Z) (s : string) (rest : list Z) :
  unknownField field →
  Z.of_nat (String.length s) < 2 ^ 32 →
  deserializeBinaryFromReader msg (newReader (stringRecord field s ++ rest))
    = deserializeBinaryFromReader msg (newReader rest).
Proof.
  intros Hfield Hs. unfold deserializeBinaryFromReader at 1.
  apply loop_unknown_string; [done | done | simpl; lia].
Qed.

Lemma deserialize_empty (msg : Node) :
  deserializeBinaryFromReader msg (newReader []) = Ok msg.
Proof. reflexivity. Qed.

(** Reading the records of a message applies its fields. *)
Lemma decode_records (source target : Node) (rest : list Z) :
  wellTyped source →
  deserializeBinaryFromReader target
    (newReader
       (idRecord source
        ++ optionalStringRecord 2 (getName source)
        ++ optionalStringRecord 3 (getLocation source)
        ++ optionalStringRecord 4 (getIpAddr source)
        ++ optionalStringRecord 5 (getCountryId source)
        ++ rest))
    = deserializeBinaryFromReader (applyRecords source target) (newReader rest).
Proof.
  intros (Hid & Hname & Hloc & Hip & Hcountry).
  unfold applyRecords, idRecord, optionalStringRecord. cbv zeta.
  destruct (decide (getId source ≠ 0));
    [rewrite decode_id_record by done | rewrite app_nil_l];
    (destruct (nonEmpty (getName source));
       [rewrite decode_name_record by done | rewrite app_nil_l]);
    (destruct (nonEmpty (getLocation source));
       [rewrite decode_location_record by done | rewrite app_nil_l]);
    (destruct (nonEmpty (getIpAddr source));
       [rewrite decode_ipAddr_record by done | rewrite app_nil_l]);
    (destruct (nonEmpty (getCountryId source));
       [rewrite decode_countryId_record by done | rewrite app_nil_l]);
    reflexivity.
Qed.

(** Reading the bytes that [serializeBinary] gives for a message applies
    its fields, whatever comes after them; at the end of the input the
    loop returns the message. *)
Lemma decode_output (source target : Node) (output rest : list Z) :
  wellTyped source →
  serializeBinary source = Ok output →
  deserializeBinaryFromReader target (newReader (output ++ rest))
    = deserializeBinaryFromReader (applyRecords source target) (newReader rest).
Proof.
  intros Hwt Hout. rewrite (serializeBinary_records _ (proj1 Hwt)) in Hout.
  injection Hout as <-. rewrite <- !app_assoc. by apply decode_records.
Qed.

Lemma decode_output_end (source target : Node) (output : list Z) :
  wellTyped source →
  serializeBinary source = Ok output →
  deserializeBinaryFromReader target (newReader output)
    = Ok (applyRecords source target).
Proof.
  intros Hwt Hout. rewrite <- (app_nil_r output).
  by rewrite (decode_output source target output [] Hwt Hout).
Qed.

(** X18. Unknown fields are skipped.  Take the bytes that [serializeBinary]
    gives for two messages, of ASCII strings and within the types of the
    schema, and one record of a field number that the message does not
    have (6 and above, below [2^28]): a varint record of an [int32], or a
    length-delimited record of a payload shorter than [2^31] bytes.
    [deserializeBinary] returns for the first bytes, the record, and the
    second bytes what it returns without the record: the merge of the two
    messages.  With an empty message on either side, the record is the
    first or the last of the input. *)
Theorem deserializeBinary_skips_unknown (field : Z) (msg1 msg2 : Node) :
  unknownField field →
  wellTyped msg1 → asciiNode msg1 →
  wellTyped msg2 → asciiNode msg2 →
  ∃ output1 output2 : list Z,
    serializeBinary msg1 = Ok output1 ∧
    serializeBinary msg2 = Ok output2 ∧
    deserializeBinary (output1 ++ output2)
      = Ok (applyRecords msg2 (applyRecords msg1 new)) ∧
    (∀ v, - 2 ^ 31 <= v < 2 ^ 31 →
       deserializeBinary (output1 ++ int32Record field v ++ output2)
         = Ok (applyRecords msg2 (applyRecords msg1 new))) ∧
    (∀ s, Z.of_nat (String.length s) < 2 ^ 31 →
       deserializeBinary (output1 ++ stringRecord field s ++ output2)
         = Ok (applyRecords msg2 (applyRecords msg1 new))).
Proof.
  intros Hfield Hwt1 _ Hwt2 _.
  pose proof (serializeBinary_records msg1 (proj1 Hwt1)) as Hout1.
  pose proof (serializeBinary_records msg2 (proj1 Hwt2)) as Hout2.
  eexists _, _. split; [exact Hout1|]. split; [exact Hout2|].
  unfold deserializeBinary. split; [|split].
  - rewrite (decode_output msg1 new _ _ Hwt1 Hout1).
    by apply decode_output_end.
  - intros v Hv. rewrite (decode_output msg1 new _ _ Hwt1 Hout1).
    rewrite decode_unknown_int32 by done. by apply decode_output_end.
  - intros s Hs. rewrite (decode_output msg1 new _ _ Hwt1 Hout1).
    rewrite decode_unknown_string
      by (done || (eapply Z.lt_trans; [exact Hs | reflexivity])). by apply decode_output_end.
Qed.

Ltac short_length :=
  match goal with
  | H : Z.of_nat (String.length ?s) < 2 ^ 31 |- Z.of_nat (String.length ?s) < 2 ^ 32 =>
      eapply Z.lt_trans; [exact H | reflexivity]
  end.

(** X19. The last record of a field wins.  Put two records of field [id],
    of [int32] values, or two records of one of the four string fields, of
    ASCII strings shorter than [2^31], in front of the bytes that
    [serializeBinary] gives for a message of ASCII strings within the
    types of the schema.  [deserializeBinary] returns what it returns with
    the second record alone: the fields of the message applied to a
    message that has the value of the second record; the first record
    leaves no trace.  A second record of the default value (0, or the
    empty string) thus resets the field. *)
Theorem deserializeBinary_last_wins (msg : Node) :
  wellTyped msg → asciiNode msg →
  ∃ output : list Z,
    serializeBinary msg = Ok output ∧
    (∀ v1 v2, - 2 ^ 31 <= v1 < 2 ^ 31 → - 2 ^ 31 <= v2 < 2 ^ 31 →
       deserializeBinary (int32Record 1 v1 ++ int32Record 1 v2 ++ output)
         = Ok (applyRecords msg (setId new v2)) ∧
       deserializeBinary (int32Record 1 v2 ++ output)
         = Ok (applyRecords msg (setId new v2))) ∧
    (∀ field s1 s2,
       2 <= field <= 5 →
       asciiOnly s1 → asciiOnly s2 →
       Z.of_nat (String.length s1) < 2 ^ 31 →
       Z.of_nat (String.length s2) < 2 ^ 31 →
       deserializeBinary (stringRecord field s1 ++ stringRecord field s2 ++ output)
         = Ok (applyRecords msg (setString field new s2)) ∧
       deserializeBinary (stringRecord field s2 ++ output)
         = Ok (applyRecords msg (setString field new s2))).
Proof.
  intros Hwt _.
  pose proof (serializeBinary_records msg (proj1 Hwt)) as Hout.
  eexists. split; [exact Hout|].
  unfold deserializeBinary. split.
  - intros v1 v2 H1 H2. rewrite !decode_id_record by done.
    rewrite !(decode_output_end msg _ _ Hwt Hout). by split.
  - intros field s1 s2 Hfield _ _ H1 H2.
    assert (field = 2 ∨ field = 3 ∨ field = 4 ∨ field = 5) as [->|[->|[->| ->]]]
      by lia.
    + rewrite !decode_name_record by short_length.
      rewrite !(decode_output_end msg _ _ Hwt Hout). by split.
    + rewrite !decode_location_record by short_length.
      rewrite !(decode_output_end msg _ _ Hwt Hout). by split.
    + rewrite !decode_ipAddr_record by short_length.
      rewrite !(decode_output_end msg _ _ Hwt Hout). by split.
    + rewrite !decode_countryId_record by short_length.
      rewrite !(decode_output_end msg _ _ Hwt Hout). by split.
Qed.

Lemma applyRecords_getters (source target : Node) :
  getId (applyRecords source target)
    = (if decide (getId source ≠ 0) then getId source else getId target) ∧
  getName (applyRecords source target)
    = (if nonEmpty (getName source) then getName source else getName target) ∧
  getLocation (applyRecords source target)
    = (if nonEmpty (getLocation source) then getLocation source
       else getLocation target) ∧
  getIpAddr (applyRecords source target)
    = (if nonEmpty (getIpAddr source) then getIpAddr source else getIpAddr target) ∧
  getCountryId (applyRecords source target)
    = (if nonEmpty (getCountryId source) then getCountryId source
       else getCountryId target).
Proof.
  unfold applyRecords. cbv zeta.
  destruct (decide (getId source ≠ 0)) as [Hid|Hid];
    destruct (nonEmpty (getName source)) eqn:Hname;
    destruct (nonEmpty (getLocation source)) eqn:Hloc;
    destruct (nonEmpty (getIpAddr source)) eqn:Hip;
    destruct (nonEmpty (getCountryId source)) eqn:Hcountry;
    try apply nonEmpty_spec in Hname; try apply nonEmpty_spec in Hloc;
    try apply nonEmpty_spec in Hip; try apply nonEmpty_spec in Hcountry;
    unfold getId, getName, getLocation, getIpAddr, getCountryId in *; simpl;
    unfold setProto3IntField, setProto3StringField;
    rewrite ?decide_True by done;
    repeat split.
Qed.

End RecordByRecord.

Section CodecComposition.
Import NodePb NodeObject.

Lemma nonEmpty_decide {A : Type} (s : string) (a b : A) :
  (if nonEmpty s then a else b) = (if decide (s ≠ "") then a else b).
Proof.
  destruct (nonEmpty s) eqn:Hs.
  - apply nonEmpty_spec in Hs. by rewrite decide_True.
  - apply nonEmpty_false in Hs. subst s. by rewrite decide_False by (by intros []).
Qed.

(** The serialization reads the message through its getters only. *)
Lemma serializeBinary_getters (msg msg' : Node) :
  getId msg' = getId msg →
  getName msg' = getName msg →
  getLocation msg' = getLocation msg →
  getIpAddr msg' = getIpAddr msg →
  getCountryId msg' = getCountryId msg →
  serializeBinary msg' = serializeBinary msg.
Proof.
  intros H1 H2 H3 H4 H5. unfold serializeBinary, serializeBinaryToWriter.
  by rewrite H1, H2, H3, H4, H5.
Qed.

Lemma applyRecords_new_getters (msg : Node) :
  getId (applyRecords msg new) = getId msg ∧
  getName (applyRecords msg new) = getName msg ∧
  getLocation (applyRecords msg new) = getLocation msg ∧
  getIpAddr (applyRecords msg new) = getIpAddr msg ∧
  getCountryId (applyRecords msg new) = getCountryId msg.
Proof.
  destruct (applyRecords_getters msg new) as (-> & -> & -> & -> & ->).
  rewrite !nonEmpty_decide.
  repeat split; case_decide as H; try done;
    apply dec_stable in H; by rewrite H.
Qed.

Lemma applyRecords_new_slots (msg : Node) :
  applyRecords msg new =
    mkNode (setProto3IntField (getId msg))
           (setProto3StringField (getName msg))
           (setProto3StringField (getLocation msg))
           (setProto3StringField (getIpAddr msg))
           (setProto3StringField (getCountryId msg)).
Proof.
  unfold applyRecords. cbv zeta. rewrite !nonEmpty_decide.
  unfold setId, setName, setLocation, setIpAddr, setCountryId.
  unfold setProto3IntField, setProto3StringField.
  destruct (decide (getId msg ≠ 0)), (decide (getName msg ≠ "")),
    (decide (getLocation msg ≠ "")), (decide (getIpAddr msg ≠ "")),
    (decide (getCountryId msg ≠ "")); reflexivity.
Qed.

(** X20. Concatenated messages merge.  Reading the bytes of a message
    followed by the bytes of a second one gives a message in which every
    field has the value of the second message where that value is not the
    default, and the value of the first message otherwise. *)
Theorem deserializeBinary_concat_merges (msg1 msg2 : Node) :
  wellTyped msg1 →
  wellTyped msg2 →
  ∃ (output1 output2 : list Z) (merged : Node),
    serializeBinary msg1 = Ok output1 ∧
    serializeBinary msg2 = Ok output2 ∧
    deserializeBinary (output1 ++ output2) = Ok merged ∧
    getId merged = (if decide (getId msg2 ≠ 0) then getId msg2 else getId msg1) ∧
    getName merged
      = (if decide (getName msg2 ≠ "") then getName msg2 else getName msg1) ∧
    getLocation merged
      = (if decide (getLocation msg2 ≠ "") then getLocation msg2
         else getLocation msg1) ∧
    getIpAddr merged
      = (if decide (getIpAddr msg2 ≠ "") then getIpAddr msg2 else getIpAddr msg1) ∧
    getCountryId merged
      = (if decide (getCountryId msg2 ≠ "") then getCountryId msg2
         else getCountryId msg1).
Proof.
  intros Hwt1 Hwt2.
  eexists _, _, (applyRecords msg2 (applyRecords msg1 new)).
  split; [apply serializeBinary_records, Hwt1|].
  split; [apply serializeBinary_records, Hwt2|].
  split.
  - unfold deserializeBinary.
    rewrite <- (app_nil_r (optionalStringRecord 5 (getCountryId msg2))).
    rewrite <- !app_assoc.
    rewrite (decode_records msg1 new _ Hwt1).
    by rewrite (decode_records msg2 _ [] Hwt2).
  - destruct (applyRecords_getters msg2 (applyRecords msg1 new))
      as (-> & -> & -> & -> & ->).
    destruct (applyRecords_new_getters msg1) as (-> & -> & -> & -> & ->).
    by rewrite !nonEmpty_decide.
Qed.

(** X21. Reading back what was written gives the canonical form of the
    message: the slot of a field is [null] when the field has its default
    value, and holds the value otherwise.  The canonical form has the same
    [toObject] and the same bytes as the message, so writing, reading and
    writing again gives the same bytes. *)
Theorem deserialize_serialize_canonical (msg : Node) :
  wellTyped msg →
  let canonical :=
    mkNode (setProto3IntField (getId msg))
           (setProto3StringField (getName msg))
           (setProto3StringField (getLocation msg))
           (setProto3StringField (getIpAddr msg))
           (setProto3StringField (getCountryId msg)) in
  ∃ output : list Z,
    serializeBinary msg = Ok output ∧
    deserializeBinary output = Ok canonical ∧
    serializeBinary canonical = Ok output ∧
    toObject canonical = toObject msg.
Proof.
  intros Hwt canonical. subst canonical. rewrite <- applyRecords_new_slots.
  destruct (applyRecords_new_getters msg) as (H1 & H2 & H3 & H4 & H5).
  eexists. split; [apply serializeBinary_records, Hwt|]. split; [|split].
  - unfold deserializeBinary.
    rewrite <- (app_nil_r (optionalStringRecord 5 (getCountryId msg))).
    by rewrite (decode_records msg new [] Hwt).
  - rewrite (serializeBinary_getters msg _ H1 H2 H3 H4 H5).
    apply serializeBinary_records, Hwt.
  - unfold toObject. unfold getId, getName, getLocation, getIpAddr, getCountryId in *.
    by rewrite H1, H2, H3, H4, H5.
Qed.

(** X22. The wire of a message is empty exactly when all its five fields
    have their default value; and the empty input reads as the message
    with all fields unset. *)
Theorem serializeBinary_empty_iff_defaults (msg : Node) :
  wellTyped msg →
  (serializeBinary msg = Ok [] ↔
     getId msg = 0 ∧ getName msg = "" ∧ getLocation msg = "" ∧
     getIpAddr msg = "" ∧ getCountryId msg = "") ∧
  deserializeBinary [] = Ok new.
Proof.
  intros Hwt. split; [|reflexivity].
  rewrite (serializeBinary_records msg) by apply Hwt.
  unfold idRecord, optionalStringRecord. split.
  - intros [= Hnil].
    apply app_eq_nil in Hnil as [Hid Hnil].
    apply app_eq_nil in Hnil as [Hname Hnil].
    apply app_eq_nil in Hnil as [Hloc Hnil].
    apply app_eq_nil in Hnil as [Hip Hcountry].
    repeat split.
    + destruct (decide (getId msg ≠ 0)) as [H|H]; [|by apply dec_stable in H].
      pose proof (int32Record_length 1 (getId msg)) as Hl.
      rewrite Hid in Hl. simpl in Hl. lia.
    + destruct (nonEmpty (getName msg)) eqn:E; [|by apply nonEmpty_false].
      pose proof (stringRecord_length 2 (getName msg)) as Hl.
      rewrite Hname in Hl. simpl in Hl. lia.
    + destruct (nonEmpty (getLocation msg)) eqn:E; [|by apply nonEmpty_false].
      pose proof (stringRecord_length 3 (getLocation msg)) as Hl.
      rewrite Hloc in Hl. simpl in Hl. lia.
    + destruct (nonEmpty (getIpAddr msg)) eqn:E; [|by apply nonEmpty_false].
      pose proof (stringRecord_length 4 (getIpAddr msg)) as Hl.
      rewrite Hip in Hl. simpl in Hl. lia.
    + destruct (nonEmpty (getCountryId msg)) eqn:E; [|by apply nonEmpty_false].
      pose proof (stringRecord_length 5 (getCountryId msg)) as Hl.
      rewrite Hcountry in Hl. simpl in Hl. lia.
  - intros (-> & -> & -> & -> & ->). by rewrite decide_False by (by intros []).
Qed.

(** X23. The accessors.  A getter returns what the setter of its field was
    given, the default included, which the setter stores as [null]; a
    setter leaves the other four fields alone; and setting a field twice
    keeps the second value only. *)
Theorem setters_and_getters (msg : Node) (v v' : Z) (s s' : string) :
  (getId (setId msg v) = v ∧
   getName (setName msg s) = s ∧
   getLocation (setLocation msg s) = s ∧
   getIpAddr (setIpAddr msg s) = s ∧
   getCountryId (setCountryId msg s) = s) ∧
  (slot1 (setId msg 0) = None ∧ slot2 (setName msg "") = None ∧
   slot3 (setLocation msg "") = None ∧ slot4 (setIpAddr msg "") = None ∧
   slot5 (setCountryId msg "") = None) ∧
  (toObject (setId msg v)
     = NodeObject.mk v (getName msg) (getLocation msg) (getIpAddr msg)
         (getCountryId msg) ∧
   toObject (setName msg s)
     = NodeObject.mk (getId msg) s (getLocation msg) (getIpAddr msg)
         (getCountryId msg) ∧
   toObject (setLocation msg s)
     = NodeObject.mk (getId msg) (getName msg) s (getIpAddr msg)
         (getCountryId msg) ∧
   toObject (setIpAddr msg s)
     = NodeObject.mk (getId msg) (getName msg) (getLocation msg) s
         (getCountryId msg) ∧
   toObject (setCountryId msg s)
     = NodeObject.mk (getId msg) (getName msg) (getLocation msg)
         (getIpAddr msg) s) ∧
  (setId (setId msg v) v' = setId msg v' ∧
   setName (setName msg s) s' = setName msg s' ∧
   setLocation (setLocation msg s) s' = setLocation msg s' ∧
   setIpAddr (setIpAddr msg s) s' = setIpAddr msg s' ∧
   setCountryId (setCountryId msg s) s' = setCountryId msg s').
Proof.
  assert (Hint : getFieldWithDefault (setProto3IntField v) 0 = v).
  { unfold setProto3IntField.
    destruct (decide (v ≠ 0)) as [H|H]; [done|].
    apply dec_stable in H. by subst v. }
  assert (Hstr : getFieldWithDefault (setProto3StringField s) "" = s).
  { unfold setProto3StringField.
    destruct (decide (s ≠ "")) as [H|H]; [done|].
    apply dec_stable in H. by subst s. }
  unfold toObject, getId, getName, getLocation, getIpAddr, getCountryId. simpl.
  rewrite Hint, Hstr. by repeat split.
Qed.

End CodecComposition.

(** ** The properties above on the sample values *)

Section FurtherExamples.
Import Game GameSelectors Dispatch NodePb NodeObject.



Lemma enter_then_leave_witness :
  currentGame inGame1 = Some game1 ∧
  Slot.player occupiedBy9 = Some player9 ∧
  (∀ j, (j < 2)%nat →
     ∃ s, GameInfo.slots game1 !! j = Some (Some s) ∧
          playerIs (PlayerRef.id player9) s = false) ∧
  ∃ slots',
    updatePlayerLeave
      (updatePlayerEnter inGame1
         (GamePlayerEnterMessage.mk (GameInfo.id game1) 2 occupiedBy9))
      (GamePlayerLeaveMessage.mk (GameInfo.id game1) (PlayerRef.id player9))
      = Ok (set_currentGame (Some (set_slots slots' game1)) inGame1) ∧
    slots' !! 2%nat =
      Some (Some (Slot.mk (SlotSettings.mk Open {[ "team" := 2 ]}) None)) ∧
    length slots' = 3%nat ∧
    ∀ j, j ≠ 2%nat → (j < 2)%nat → slots' !! j = GameInfo.slots game1 !! j.
Proof.
  assert (Hbefore : ∀ j, (j < 2)%nat →
            ∃ s, GameInfo.slots game1 !! j = Some (Some s) ∧
                 playerIs (PlayerRef.id player9) s = false).
  { intros [|[|j]] Hj; [by exists emptySlot | by exists occupiedBy7 | lia]. }
  split; [reflexivity|]. split; [reflexivity|]. split; [exact Hbefore|].
  exact (proj1 (enter_then_leave inGame1 game1 2 occupiedBy9 player9
                  eq_refl eq_refl) Hbefore).
Defined.

Lemma updatePlayerLeave_players_witness :
  currentGame inGame1 = Some game1 ∧
  GameInfo.id game1 = 1 ∧
  dense (GameInfo.slots game1) ∧
  ∃ (p : PlayerRef.t) (before after : list PlayerRef.t),
    PlayerRef.id p = 7 ∧
    Forall (λ q, PlayerRef.id q ≠ 7) before ∧
    selectCurrentGamePlayers (currentGame inGame1) = Ok (before ++ p :: after) ∧
    selectCurrentGamePlayers
      (currentGame (step inGame1 (UpdatePlayerLeave (GamePlayerLeaveMessage.mk 1 7))))
      = Ok (before ++ after).
Proof.
  assert (Hdense : dense (GameInfo.slots game1)).
  { intros [|[|j]]; simpl; discriminate. }
  split; [reflexivity|]. split; [reflexivity|]. split; [exact Hdense|].
  apply (updatePlayerLeave_players inGame1 (GamePlayerLeaveMessage.mk 1 7) game1
           eq_refl eq_refl Hdense).
  exists 1%nat, occupiedBy7. split; reflexivity.
Defined.

Lemma pings_discarded_on_reset_witness :
  (∃ payload, UpdateCurrentGame (Some game1) = UpdateCurrentGame payload) ∧
  pingOf
    (applyPings
       (step (updateCurrentPing inGame1 deltaOf7) (UpdateCurrentGame (Some game1)))
       [deltaOf8])
    (propertyKey 7) "9"
  = None.
Proof.
  assert (Hreset : ∃ payload,
            UpdateCurrentGame (Some game1) = UpdateCurrentGame payload)
    by (by eexists).
  split; [exact Hreset|].
  rewrite (pings_discarded_on_reset (updateCurrentPing inGame1 deltaOf7)
             (UpdateCurrentGame (Some game1)) [deltaOf8] 7 "9" (or_intror Hreset)).
  reflexivity.
Defined.

Lemma delta_shows_in_node_view_witness :
  GamePlayerPingMapUpdateMessage.ping_map deltaOf7 !! propertyKey (Node.id node9)
    = Some 42 ∧
  ∃ r,
    selectCurrentNodePingMap (Some node9)
      (currentPingMap (updateCurrentPing inGame1 deltaOf7)) (Some 8) = Some r ∧
    r !! propertyKey 7 = Some (Some 42).
Proof.
  split; [reflexivity|].
  exact (delta_shows_in_node_view inGame1 deltaOf7 node9 8 42 eq_refl).
Defined.

Lemma connect_then_reply_witness :
  Thunks.sessionReply (type (MDisconnect kicked)) = true ∧
  Ws.playerSessionLoading
    (wsAfterMessage "/lobby"
       (Thunks.wsAfterThunk connected (Thunks.connect "token"))
       (MDisconnect kicked))
  = false.
Proof.
  split; [reflexivity|].
  destruct (connect_then_reply "/lobby" "token" connected (MDisconnect kicked)
              eq_refl) as (_ & _ & _ & Hdown & _).
  exact Hdown.
Defined.

Lemma asciiNode_sampleNode : asciiNode sampleNode.
Proof.
  repeat split; unfold asciiOnly; simpl;
    repeat first [apply Forall_nil_2 | apply Forall_cons_2; [by vm_compute|]].
Qed.

Lemma asciiNode_namedNode : asciiNode namedNode.
Proof.
  repeat split; unfold asciiOnly; simpl;
    repeat first [apply Forall_nil_2 | apply Forall_cons_2; [by vm_compute|]].
Qed.

Lemma deserializeBinary_skips_unknown_witness :
  unknownField 7 ∧
  wellTyped sampleNode ∧ asciiNode sampleNode ∧
  wellTyped namedNode ∧ asciiNode namedNode ∧
  ∃ output1 output2 : list Z,
    serializeBinary sampleNode = Ok output1 ∧
    serializeBinary namedNode = Ok output2 ∧
    deserializeBinary (output1 ++ output2)
      = Ok (applyRecords namedNode (applyRecords sampleNode new)) ∧
    (∀ v, - 2 ^ 31 <= v < 2 ^ 31 →
       deserializeBinary (output1 ++ int32Record 7 v ++ output2)
         = Ok (applyRecords namedNode (applyRecords sampleNode new))) ∧
    (∀ s, Z.of_nat (String.length s) < 2 ^ 31 →
       deserializeBinary (output1 ++ stringRecord 7 s ++ output2)
         = Ok (applyRecords namedNode (applyRecords sampleNode new))).
Proof.
  assert (Hunknown : unknownField 7) by (split; by vm_compute).
  assert (Hwt1 : wellTyped sampleNode) by (repeat split; by vm_compute).
  assert (Hwt2 : wellTyped namedNode) by (repeat split; by vm_compute).
  split; [exact Hunknown|].
  split; [exact Hwt1|]. split; [exact asciiNode_sampleNode|].
  split; [exact Hwt2|]. split; [exact asciiNode_namedNode|].
  exact (deserializeBinary_skips_unknown 7 sampleNode namedNode Hunknown
           Hwt1 asciiNode_sampleNode Hwt2 asciiNode_namedNode).
Defined.

Lemma deserializeBinary_last_wins_witness :
  wellTyped namedNode ∧ asciiNode namedNode ∧
  ∃ output : list Z,
    serializeBinary namedNode = Ok output ∧
    (∀ v1 v2, - 2 ^ 31 <= v1 < 2 ^ 31 → - 2 ^ 31 <= v2 < 2 ^ 31 →
       deserializeBinary (int32Record 1 v1 ++ int32Record 1 v2 ++ output)
         = Ok (applyRecords namedNode (setId new v2)) ∧
       deserializeBinary (int32Record 1 v2 ++ output)
         = Ok (applyRecords namedNode (setId new v2))) ∧
    (∀ field s1 s2,
       2 <= field <= 5 →
       asciiOnly s1 → asciiOnly s2 →
       Z.of_nat (String.length s1) < 2 ^ 31 →
       Z.of_nat (String.length s2) < 2 ^ 31 →
       deserializeBinary (stringRecord field s1 ++ stringRecord field s2 ++ output)
         = Ok (applyRecords namedNode (setString field new s2)) ∧
       deserializeBinary (stringRecord field s2 ++ output)
         = Ok (applyRecords namedNode (setString field new s2))).
Proof.
  assert (Hwt : wellTyped namedNode) by (repeat split; by vm_compute).
  split; [exact Hwt|]. split; [exact asciiNode_namedNode|].
  exact (deserializeBinary_last_wins namedNode Hwt asciiNode_namedNode).
Defined.

Lemma deserializeBinary_concat_merges_witness :
  wellTyped sampleNode ∧ wellTyped namedNode ∧
  ∃ (output1 output2 : list Z) (merged : Node),
    serializeBinary sampleNode = Ok output1 ∧
    serializeBinary namedNode = Ok output2 ∧
    deserializeBinary (output1 ++ output2) = Ok merged ∧
    getId merged = -5 ∧
    getName merged = "us-east" ∧
    getLocation merged = "" ∧
    getIpAddr merged = "10.0.0.1" ∧
    getCountryId merged = "".
Proof.
  assert (Hwt1 : wellTyped sampleNode) by (repeat split; by vm_compute).
  assert (Hwt2 : wellTyped namedNode) by (repeat split; by vm_compute).
  split; [exact Hwt1|]. split; [exact Hwt2|].
  exact (deserializeBinary_concat_merges sampleNode namedNode Hwt1 Hwt2).
Defined.

Lemma deserialize_serialize_canonical_witness :
  wellTyped sampleNode ∧
  ∃ output : list Z,
    serializeBinary sampleNode = Ok output ∧
    deserializeBinary output
      = Ok (mkNode (Some (-5)) (Some "eu-west") None (Some "10.0.0.1") None) ∧
    serializeBinary (mkNode (Some (-5)) (Some "eu-west") None (Some "10.0.0.1") None)
      = Ok output ∧
    toObject (mkNode (Some (-5)) (Some "eu-west") None (Some "10.0.0.1") None)
      = toObject sampleNode.
Proof.
  assert (Hwt : wellTyped sampleNode) by (repeat split; by vm_compute).
  split; [exact Hwt|].
  exact (deserialize_serialize_canonical sampleNode Hwt).
Defined.

Lemma serializeBinary_empty_iff_defaults_witness :
  wellTyped new ∧ serializeBinary new = Ok [] ∧ deserializeBinary [] = Ok new.
Proof.
  assert (Hwt : wellTyped new) by (repeat split; by vm_compute).
  split; [exact Hwt|].
  destruct (serializeBinary_empty_iff_defaults new Hwt) as [Hiff Hempty].
  split; [|exact Hempty]. apply Hiff. by repeat split.
Defined.

End FurtherExamples.
